(** * CryptoShield: confidential staking and lending

    A shallow embedding of the two Solidity contracts of the repository,
    [CryptoShield] (the vault) and [CZama] (the ledger), and proofs of the
    properties the specification states about them.

    Ciphertexts are modelled by the plaintext they carry: a [euint64] is the
    64-bit value a holder of the decryption key would read, an [ebool] the
    boolean.  Solidity mappings are finite maps read with a zero default.
    A contract function is a computation in the monad [M], which threads the
    world state and may revert; [call] is the transaction boundary that rolls
    the state back when the function reverts. *)

From stdpp Require Import base option gmap list strings.
From Stdlib Require Import ZArith Lia.

Local Open Scope Z_scope.

(** ** Solidity value types *)

Abbreviation address := Z (only parsing).
Abbreviation uint256 := Z (only parsing).
Abbreviation euint64 := Z (only parsing).
Abbreviation ebool := bool (only parsing).

Definition uint64_max : Z := 2 ^ 64 - 1.
Definition uint256_max : Z := 2 ^ 256 - 1.

Definition is_uint64 (v : Z) : Prop := 0 <= v <= uint64_max.
Definition is_uint256 (v : Z) : Prop := 0 <= v <= uint256_max.

(** [uint64(x)]: the explicit narrowing conversion keeps the low 64 bits. *)
Definition to_uint64 (x : uint256) : Z := x mod 2 ^ 64.

(** [m[a]] for a Solidity mapping: absent keys read as zero. *)
Definition rd (m : gmap Z Z) (a : address) : Z := default 0 (m !! a).

(** ** Errors and events *)

Inductive Error : Type :=
  | ZeroStakeAmount
  | StakeTooLarge
  | NoStake
  | ZeroWithdrawAmount
  | InsufficientStake
  | EthTransferFailed
  | UnauthorizedOwner (caller : address)
  | UnauthorizedMinter (caller : address)
  | InvalidMinter (minter : address)
  | ArithmeticPanic
  | InvalidInputProof.

Inductive Event : Type :=
  | StakeDeposited (account : address) (amount : uint256)
  | StakeWithdrawn (account : address) (amount : uint256)
  | Borrowed (account : address) (amount : euint64)
  | Repaid (account : address) (amount : euint64).

Inductive result (A : Type) : Type :=
  | Ok (a : A)
  | Revert (e : Error).
Arguments Ok {A} a.
Arguments Revert {A} e.

(** ** The encrypted-arithmetic backend *)

Module FHE.

(** The FHE library ([@fhevm/solidity/lib/FHE.sol]) is an external
    collaborator absent from the sources.  Section 6 of the specification
    fixes every encrypted value to the 64-bit unsigned domain and lists the
    primitives: encode, addition and subtraction, comparison, boolean and,
    conditional select.  Each primitive is modelled by its action on the
    plaintexts, with the 64-bit wrap-around written out. *)

(** Modelled from the spec: the encoding of a plain value of the absent FHE
    library, into the 64-bit domain. *)
Definition asEuint64 (v : Z) : euint64 := v mod 2 ^ 64.

(** Modelled from the spec: encrypted addition of the absent FHE library,
    unguarded, so it wraps around at 64 bits. *)
Definition add (a b : euint64) : euint64 := (a + b) mod 2 ^ 64.

(** Modelled from the spec: encrypted subtraction of the absent FHE library,
    unguarded, so it wraps around at 64 bits. *)
Definition sub (a b : euint64) : euint64 := (a - b) mod 2 ^ 64.

(** Modelled from the spec: encrypted less-than-or-equal comparison of the
    absent FHE library. *)
Definition le (a b : euint64) : ebool := a <=? b.

(** Modelled from the spec: encrypted greater-than-or-equal comparison of
    the absent FHE library. *)
Definition ge (a b : euint64) : ebool := b <=? a.

(** Modelled from the spec: encrypted boolean conjunction of the absent FHE
    library. *)
Definition and (a b : ebool) : ebool := a && b.

(** Modelled from the spec: encrypted conditional select of the absent FHE
    library; it yields the first value when the flag holds and the second
    otherwise. *)
Definition select (c : ebool) (a b : euint64) : euint64 :=
  if c then a else b.

End FHE.

Module FHESafeMath.

(** Modelled from the spec: the overflow-safe increase of
    [@openzeppelin/confidential-contracts/utils/FHESafeMath.sol], absent
    from the sources.  It returns the encrypted flag that no overflow
    occurred and a result that is the sum when the flag holds and the old value
    otherwise (a no-op instead of wrapping). *)
Definition tryIncrease (oldValue delta : euint64) : ebool * euint64 :=
  let newValue := FHE.add oldValue delta in
  let success := FHE.ge newValue oldValue in
  (success, FHE.select success newValue oldValue).

(** Modelled from the spec: the overflow-safe decrease of the same absent
    library.  The flag is true iff [delta <= oldValue]; the result is the
    difference when the flag holds and the old value otherwise. *)
Definition tryDecrease (oldValue delta : euint64) : ebool * euint64 :=
  let success := FHE.ge oldValue delta in
  (success, FHE.select success (FHE.sub oldValue delta) oldValue).

End FHESafeMath.

(** ** Externally supplied ciphertexts *)

(** The handle of an externally supplied ciphertext. *)
Abbreviation externalEuint64 := Z (only parsing).

(** What an input proof attests: the handle it covers, the plaintext behind
    that handle, and the contract and account the ciphertext was made for. *)
Record inputProof : Type := mkProof {
  proof_handle : Z;
  proof_clear : Z;
  proof_contract : address;
  proof_user : address
}.

(** Modelled from the spec: the check of the external-input validator
    (section 6), absent from the sources.  A proof is accepted when it covers
    the handle, is bound to this contract and to the submitting account, and
    attests a value of the 64-bit domain. *)
Definition proof_ok (this sender : address) (h : externalEuint64)
    (p : inputProof) : bool :=
  (proof_handle p =? h) && (proof_contract p =? this)
  && (proof_user p =? sender)
  && (0 <=? proof_clear p) && (proof_clear p <=? uint64_max).

(** ** Contract storage and the world *)

Module CZamaStorage.
Record t : Type := mk {
  owner : address;
  minter : address;
  (** [_balances] of the ERC7984 base contract *)
  _balances : gmap Z Z
}.
End CZamaStorage.

Module ShieldStorage.
Record t : Type := mk {
  czama : address;
  _stakedEncrypted : gmap Z Z;
  _debtEncrypted : gmap Z Z;
  _stakedPlain : gmap Z Z
}.
End ShieldStorage.

Record World : Type := mkWorld {
  shieldAddr : address;              (* address(this) of CryptoShield *)
  shield : ShieldStorage.t;
  ledger : CZamaStorage.t;           (* the CZama contract at [czama] *)
  ethBalance : Z;                    (* base asset held by CryptoShield *)
  acl : list (euint64 * address);    (* decryption grants, newest first *)
  events : list Event                (* emitted events, newest first *)
}.

(** Decrypted views of one account's records. *)
Definition plainStake (w : World) (a : address) : Z :=
  rd (ShieldStorage._stakedPlain (shield w)) a.
Definition encryptedStake (w : World) (a : address) : Z :=
  rd (ShieldStorage._stakedEncrypted (shield w)) a.
Definition encryptedDebt (w : World) (a : address) : Z :=
  rd (ShieldStorage._debtEncrypted (shield w)) a.
Definition encryptedBalance (w : World) (a : address) : Z :=
  rd (CZamaStorage._balances (ledger w)) a.

(** ** The execution monad *)

(** A computation runs on a world and yields a value or a revert, together
    with the world as it stands at that point.  The writes made before a
    revert are still in that world: undoing them is the job of [call]. *)
Definition M (A : Type) : Type := World -> result A * World.

Definition ret {A} (a : A) : M A := fun w => (Ok a, w).

Definition bind {A B} (m : M A) (k : A -> M B) : M B :=
  fun w =>
    match m w with
    | (Ok a, w') => k a w'
    | (Revert e, w') => (Revert e, w')
    end.

Definition revert {A} (e : Error) : M A := fun w => (Revert e, w).

Definition gets {A} (f : World -> A) : M A := fun w => (Ok (f w), w).

Definition modify (f : World -> World) : M unit := fun w => (Ok tt, f w).

#[export] Instance M_ret : MRet M := @ret.
#[export] Instance M_bind : MBind M := fun A B k m => bind m k.

(** The transaction boundary: a revert restores the world of before. *)
Definition call {A} (m : M A) : M A :=
  fun w =>
    match m w with
    | (Ok a, w') => (Ok a, w')
    | (Revert e, _) => (Revert e, w)
    end.

(** Checked [uint256] arithmetic of Solidity 0.8. *)
Definition checked_add (a b : uint256) : M uint256 :=
  if a + b >? uint256_max then revert ArithmeticPanic else ret (a + b).

Definition checked_sub (a b : uint256) : M uint256 :=
  if a - b <? 0 then revert ArithmeticPanic else ret (a - b).

(** *** Storage writes *)

Definition set_shield (f : ShieldStorage.t -> ShieldStorage.t) : M unit :=
  modify (fun w =>
    mkWorld (shieldAddr w) (f (shield w)) (ledger w) (ethBalance w)
            (acl w) (events w)).

Definition set_ledger (f : CZamaStorage.t -> CZamaStorage.t) : M unit :=
  modify (fun w =>
    mkWorld (shieldAddr w) (shield w) (f (ledger w)) (ethBalance w)
            (acl w) (events w)).

Definition set_stakedPlain (a : address) (v : uint256) : M unit :=
  set_shield (fun s =>
    ShieldStorage.mk (ShieldStorage.czama s)
      (ShieldStorage._stakedEncrypted s) (ShieldStorage._debtEncrypted s)
      (<[a := v]> (ShieldStorage._stakedPlain s))).

Definition set_stakedEncrypted (a : address) (v : euint64) : M unit :=
  set_shield (fun s =>
    ShieldStorage.mk (ShieldStorage.czama s)
      (<[a := v]> (ShieldStorage._stakedEncrypted s))
      (ShieldStorage._debtEncrypted s) (ShieldStorage._stakedPlain s)).

Definition set_debtEncrypted (a : address) (v : euint64) : M unit :=
  set_shield (fun s =>
    ShieldStorage.mk (ShieldStorage.czama s)
      (ShieldStorage._stakedEncrypted s)
      (<[a := v]> (ShieldStorage._debtEncrypted s))
      (ShieldStorage._stakedPlain s)).

Definition set_balance (a : address) (v : euint64) : M unit :=
  set_ledger (fun l =>
    CZamaStorage.mk (CZamaStorage.owner l) (CZamaStorage.minter l)
      (<[a := v]> (CZamaStorage._balances l))).

Definition set_minter (m : address) : M unit :=
  set_ledger (fun l =>
    CZamaStorage.mk (CZamaStorage.owner l) m (CZamaStorage._balances l)).

(** *** Side effects outside storage *)

Definition emit (e : Event) : M unit :=
  modify (fun w =>
    mkWorld (shieldAddr w) (shield w) (ledger w) (ethBalance w)
            (acl w) (e :: events w)).

(** [FHE.allow(v, who)]: grant [who] the right to decrypt [v]. *)
Definition allow (v : euint64) (who : address) : M unit :=
  modify (fun w =>
    mkWorld (shieldAddr w) (shield w) (ledger w) (ethBalance w)
            ((v, who) :: acl w) (events w)).

(** A payable entry point is credited with [msg.value] on entry. *)
Definition receive_value (v : uint256) : M unit :=
  modify (fun w =>
    mkWorld (shieldAddr w) (shield w) (ledger w) (ethBalance w + v)
            (acl w) (events w)).

(** [to.call{value: amount}] with empty calldata: the transfer goes through when the contract
    holds the amount and the receiver accepts it, and reports [false]
    otherwise.  Whether the receiver accepts is an input of the transaction;
    the receiver is taken not to call back into the contracts. *)
Definition send_value (accepts : bool) (amount : uint256) : M bool :=
  fun w =>
    if accepts && (amount <=? ethBalance w) then
      (Ok true,
       mkWorld (shieldAddr w) (shield w) (ledger w) (ethBalance w - amount)
               (acl w) (events w))
    else (Ok false, w).

(** Modelled from the spec: [FHE.fromExternal] of the absent FHE library.
    It checks that the proof covers the handle and is bound to this contract
    and to the submitting account, and yields the 64-bit value; a bad proof
    makes the whole call fail. *)
Definition fromExternal (this sender : address) (h : externalEuint64)
    (p : inputProof) : M euint64 :=
  if proof_ok this sender h p then ret (proof_clear p)
  else revert InvalidInputProof.

(** ** The ledger: [contracts/CZama.sol] *)

Module CZama.

Definition this (w : World) : address := ShieldStorage.czama (shield w).

(** Modelled from the spec: [_mint] of the ERC7984 base contract, absent
    from the sources.  Section 4.2: it increases [encryptedBalance[to]] by
    the amount with the unguarded encrypted addition, re-grants access to
    the contract and the account, and returns the new balance handle. *)
Definition _mint (to : address) (amount : euint64) : M euint64 :=
  balance ← gets (fun w => encryptedBalance w to);
  let updated := FHE.add balance amount in
  set_balance to updated;;
  self ← gets this;
  allow updated self;;
  allow updated to;;
  mret updated.

(** Modelled from the spec: [_burn] of the absent ERC7984 base contract.
    Section 4.2: symmetric to [_mint], with an unguarded subtraction. *)
Definition _burn (from : address) (amount : euint64) : M euint64 :=
  balance ← gets (fun w => encryptedBalance w from);
  let updated := FHE.sub balance amount in
  set_balance from updated;;
  self ← gets this;
  allow updated self;;
  allow updated from;;
  mret updated.

Definition updateMinter (sender newMinter : address) : M unit :=
  owner ← gets (fun w => CZamaStorage.owner (ledger w));
  if negb (sender =? owner) then revert (UnauthorizedOwner sender)
  else if newMinter =? 0 then revert (InvalidMinter newMinter)
  else set_minter newMinter.

Definition mint (sender to : address) (amount : euint64) : M euint64 :=
  minter ← gets (fun w => CZamaStorage.minter (ledger w));
  if negb (sender =? minter) then revert (UnauthorizedMinter sender)
  else _mint to amount.

Definition burnFrom (sender from : address) (amount : euint64) : M euint64 :=
  minter ← gets (fun w => CZamaStorage.minter (ledger w));
  if negb (sender =? minter) then revert (UnauthorizedMinter sender)
  else _burn from amount.

End CZama.

(** ** The vault: [CryptoShield] *)

Module CryptoShield.

Definition stake (sender : address) (value : uint256) : M unit :=
  receive_value value;;
  if value =? 0 then revert ZeroStakeAmount
  else
    current ← gets (fun w => plainStake w sender);
    nextPlain ← checked_add current value;
    if nextPlain >? uint64_max then revert StakeTooLarge
    else
      set_stakedPlain sender nextPlain;;
      let amount := FHE.asEuint64 (to_uint64 value) in
      stored ← gets (fun w => encryptedStake w sender);
      let '(_, updated) := FHESafeMath.tryIncrease stored amount in
      set_stakedEncrypted sender updated;;
      this ← gets shieldAddr;
      allow updated this;;
      allow updated sender;;
      emit (StakeDeposited sender value).

Definition withdraw (sender : address) (amount : uint256) (accepts : bool)
    : M unit :=
  if amount =? 0 then revert ZeroWithdrawAmount
  else
    currentPlain ← gets (fun w => plainStake w sender);
    if amount >? currentPlain then revert InsufficientStake
    else if amount >? uint64_max then revert StakeTooLarge
    else
      nextPlain ← checked_sub currentPlain amount;
      set_stakedPlain sender nextPlain;;
      let encryptedAmount := FHE.asEuint64 (to_uint64 amount) in
      stored ← gets (fun w => encryptedStake w sender);
      let '(_, updated) := FHESafeMath.tryDecrease stored encryptedAmount in
      set_stakedEncrypted sender updated;;
      this ← gets shieldAddr;
      allow updated this;;
      allow updated sender;;
      emit (StakeWithdrawn sender amount);;
      sent ← send_value accepts amount;
      if negb sent then revert EthTransferFailed else mret tt.

Definition borrow (sender : address) (encryptedAmount : externalEuint64)
    (proof : inputProof) : M unit :=
  currentPlain ← gets (fun w => plainStake w sender);
  if currentPlain =? 0 then revert NoStake
  else
    this ← gets shieldAddr;
    amount ← fromExternal this sender encryptedAmount proof;
    currentDebt ← gets (fun w => encryptedDebt w sender);
    let '(increasedOk, increasedDebt) :=
      FHESafeMath.tryIncrease currentDebt amount in
    stored ← gets (fun w => encryptedStake w sender);
    let withinCollateral := FHE.le increasedDebt stored in
    let canBorrow := FHE.and increasedOk withinCollateral in
    let finalDebt := FHE.select canBorrow increasedDebt currentDebt in
    set_debtEncrypted sender finalDebt;;
    allow finalDebt this;;
    allow finalDebt sender;;
    let mintAmount := FHE.select canBorrow amount (FHE.asEuint64 0) in
    czama ← gets CZama.this;
    allow mintAmount czama;;
    CZama.mint this sender mintAmount;;
    emit (Borrowed sender mintAmount).

Definition repay (sender : address) (encryptedAmount : externalEuint64)
    (proof : inputProof) : M unit :=
  this ← gets shieldAddr;
  amount ← fromExternal this sender encryptedAmount proof;
  currentDebt ← gets (fun w => encryptedDebt w sender);
  let '(canRepay, updatedDebt) :=
    FHESafeMath.tryDecrease currentDebt amount in
  set_debtEncrypted sender updatedDebt;;
  allow updatedDebt this;;
  allow updatedDebt sender;;
  let burnAmount := FHE.select canRepay amount (FHE.asEuint64 0) in
  czama ← gets CZama.this;
  allow burnAmount czama;;
  CZama.burnFrom this sender burnAmount;;
  emit (Repaid sender burnAmount).

Definition getEncryptedStake (account : address) : M euint64 :=
  gets (fun w => encryptedStake w account).

Definition getEncryptedDebt (account : address) : M euint64 :=
  gets (fun w => encryptedDebt w account).

End CryptoShield.

(** ** Transactions and reachable worlds *)

(** What can happen to the two contracts: a call to one of their entry
    points, or ether credited to the vault's address without any call (the
    beneficiary of a self-destruct or of a block reward), in which case no
    code of the vault runs and only its holdings grow. *)
Inductive Tx : Type :=
  | TxStake (sender : address) (value : uint256)
  | TxWithdraw (sender : address) (amount : uint256) (accepts : bool)
  | TxBorrow (sender : address) (h : externalEuint64) (p : inputProof)
  | TxRepay (sender : address) (h : externalEuint64) (p : inputProof)
  | TxMint (sender to : address) (amount : euint64)
  | TxBurnFrom (sender from : address) (amount : euint64)
  | TxUpdateMinter (sender newMinter : address)
  | TxForceEther (amount : uint256).

(** The arguments of a transaction lie in their Solidity types. *)
Definition well_typed (tx : Tx) : Prop :=
  match tx with
  | TxStake _ value => is_uint256 value
  | TxWithdraw _ amount _ => is_uint256 amount
  | TxBorrow _ _ _ | TxRepay _ _ _ => True
  | TxMint _ _ amount | TxBurnFrom _ _ amount => is_uint64 amount
  | TxUpdateMinter _ _ => True
  | TxForceEther amount => is_uint256 amount
  end.

Definition discard {A} (m : M A) : M unit := m ;; mret tt.

Definition execute (tx : Tx) : M unit :=
  match tx with
  | TxStake sender value => CryptoShield.stake sender value
  | TxWithdraw sender amount accepts =>
      CryptoShield.withdraw sender amount accepts
  | TxBorrow sender h p => CryptoShield.borrow sender h p
  | TxRepay sender h p => CryptoShield.repay sender h p
  | TxMint sender to amount => discard (CZama.mint sender to amount)
  | TxBurnFrom sender from amount =>
      discard (CZama.burnFrom sender from amount)
  | TxUpdateMinter sender newMinter => CZama.updateMinter sender newMinter
  | TxForceEther amount => receive_value amount
  end.

(** The world a transaction leaves behind. *)
Definition transact (tx : Tx) (w : World) : World := snd (call (execute tx) w).

(** The world right after deployment: [CZama] constructed by [deployer] with
    [initialMinter], [CryptoShield] constructed at [vault] with the ledger's
    address [token]. *)
Definition genesis (deployer initialMinter vault token : address) : World :=
  mkWorld vault
    (ShieldStorage.mk token ∅ ∅ ∅)
    (CZamaStorage.mk deployer initialMinter ∅)
    0 [] [].

Inductive reachable : World -> Prop :=
  | reach_genesis deployer initialMinter vault token :
      initialMinter <> 0 ->
      reachable (genesis deployer initialMinter vault token)
  | reach_step w tx :
      reachable w -> well_typed tx -> reachable (transact tx w).

(** The deployment is wired: the ledger's minter is the vault. *)
Definition wired (w : World) : Prop :=
  CZamaStorage.minter (ledger w) = shieldAddr w.

(** * Properties

    The predicates and the programs the statements below are about. *)

(** ** Well-formed worlds *)

(** The representation invariant of the two contracts: every stored value
    lies in its 64-bit domain, the encrypted stake mirrors the plain one, and
    the vault's holdings are not negative. *)
Record wf (w : World) : Prop := mk_wf {
  wf_plain : forall a, is_uint64 (plainStake w a);
  wf_mirror : forall a, encryptedStake w a = plainStake w a;
  wf_debt : forall a, is_uint64 (encryptedDebt w a);
  wf_balance : forall a, is_uint64 (encryptedBalance w a);
  wf_eth : 0 <= ethBalance w
}.

(** What no transaction of the vault changes. *)
Definition same_setup (w w' : World) : Prop :=
  shieldAddr w' = shieldAddr w
  /\ ShieldStorage.czama (shield w') = ShieldStorage.czama (shield w)
  /\ CZamaStorage.owner (ledger w') = CZamaStorage.owner (ledger w)
  /\ CZamaStorage.minter (ledger w') = CZamaStorage.minter (ledger w).

(** The encrypted verdict of [borrow]: the sum fits in 64 bits and is
    covered by the stake. *)
Definition canBorrow (d a s : Z) : bool :=
  (d + a <=? uint64_max) && (d + a <=? s).

(** ** Collateralisation *)

(** The predicate of the invariant: no account owes more than it staked. *)
Definition collateralised (w : World) : Prop :=
  forall a, encryptedDebt w a <= encryptedStake w a.

(** What a withdrawal has to leave behind for the predicate to survive it;
    [withdraw] itself checks the plain stake only. *)
Definition keeps_cover (tx : Tx) (w : World) : Prop :=
  match tx with
  | TxWithdraw sender amount _ =>
      encryptedDebt w sender <= encryptedStake w sender - amount
  | _ => True
  end.

(** The four calls of the round trip, each a transaction of its own. *)
Definition round_trip (c s : Z) (h1 : Z) (p1 : inputProof) (h2 : Z)
    (p2 : inputProof) : M unit :=
  call (CryptoShield.stake c s);;
  call (CryptoShield.borrow c h1 p1);;
  call (CryptoShield.repay c h2 p2);;
  call (CryptoShield.withdraw c s true).

(** ** A concrete deployment, used to exercise the theorems *)

Module Demo.

Definition deployer : Z := 1.
Definition vault : Z := 500.
Definition token : Z := 600.
Definition alice : Z := 1001.

(** The ledger is deployed with the vault as its minter. *)
Definition fresh : World := genesis deployer vault vault token.

(** An input of [alice] for the vault, carrying [v]. *)
Definition input (v : Z) : inputProof := mkProof 7 v vault alice.

Definition staked : World := transact (TxStake alice 10) fresh.

Definition indebted : World := transact (TxBorrow alice 7 (input 10)) staked.

End Demo.

(** ** Further notions for the contracts *)

(** The sum of the values a mapping stores. *)
Definition total (m : gmap Z Z) : Z := map_fold (fun _ v acc => v + acc) 0 m.

(** The same for one account: only a withdrawal by the account itself has
    to leave its stake at or above its debt. *)
Definition keeps_cover_of (tx : Tx) (w : World) (a : address) : Prop :=
  match tx with
  | TxWithdraw sender amount _ =>
      sender = a -> encryptedDebt w a <= encryptedStake w a - amount
  | _ => True
  end.

(** The plain stake of all accounts together. *)
Definition totalStaked (w : World) : Z :=
  total (ShieldStorage._stakedPlain (shield w)).

(** The account whose records a transaction is about: the sender for the
    vault's entry points, the beneficiary for the ledger's, none for a
    change of minter or for forced ether. *)
Definition tx_account (tx : Tx) : option address :=
  match tx with
  | TxStake sender _ | TxWithdraw sender _ _
  | TxBorrow sender _ _ | TxRepay sender _ _ => Some sender
  | TxMint _ to _ => Some to
  | TxBurnFrom _ from _ => Some from
  | TxUpdateMinter _ _ | TxForceEther _ => None
  end.

(** [deployFixture] of the test suite: [CZama] is deployed with the deployer
    as its first minter, [CryptoShield] is deployed with the ledger's
    address, and the deployer hands the minter role to the vault. *)
Definition deployFixture (deployer vault token : address) : World :=
  transact (TxUpdateMinter deployer vault)
    (genesis deployer deployer vault token).

(** ** The front end: [ShieldApp]

    The pure helpers of the React component that drives the contracts.  A
    JavaScript string is the list of its UTF-16 code units; a [bigint] is an
    integer. *)

Module ShieldApp.

(** A string literal, as code units. *)
Definition str (s : string) : list N :=
  Ascii.N_of_ascii <$> String.list_ascii_of_string s.

(** [s.split(sep)] for a separator of one code unit: the pieces between the
    separators, one piece more than there are separators. *)
Fixpoint split (sep : N) (s : list N) : list (list N) :=
  match s with
  | [] => [[]]
  | c :: rest =>
      if N.eqb c sep then [] :: split sep rest
      else match split sep rest with
           | [] => [[c]]
           | piece :: pieces => (c :: piece) :: pieces
           end
  end.

(** [pieces.join(sep)] *)
Fixpoint join (sep : N) (pieces : list (list N)) : list N :=
  match pieces with
  | [] => []
  | [piece] => piece
  | piece :: rest => piece ++ sep :: join sep rest
  end.

(** How [slice] reads an index: negative ones count from the end, and all
    are clamped to the string. *)
Definition clamp (len i : Z) : Z :=
  if i <? 0 then Z.max (len + i) 0 else Z.min i len.

(** [s.slice(start, stop)] *)
Definition slice (s : list N) (start stop : Z) : list N :=
  let len := Z.of_nat (length s) in
  let from := clamp len start in
  let to := clamp len stop in
  take (Z.to_nat (to - from)) (drop (Z.to_nat from) s).

(** [s.slice(start)] *)
Definition slice_from (s : list N) (start : Z) : list N :=
  slice s start (Z.of_nat (length s)).

Definition dot : N := 46.

(** [trimDecimals(value, decimals)]; the code calls it with the default of
    six decimals. *)
Definition trimDecimals (value : list N) (decimals : Z) : list N :=
  let parts := split dot value in
  let whole := default [] (parts !! 0%nat) in
  match parts !! 1%nat with
  | None | Some [] => whole
  | Some fraction => whole ++ dot :: slice fraction 0 decimals
  end.

Section Format.

(** [ethers.formatEther] belongs to a library: it is a parameter here. *)
Variable formatEther : Z -> list N.

(** [formatAmount(value)]; [None] is [undefined]. *)
Definition formatAmount (value : option Z) : list N :=
  match value with
  | None => str "--"
  | Some v => trimDecimals (formatEther v) 6
  end.

End Format.

(** [shortenAddress(address)]; [None] is [undefined]. *)
Definition shortenAddress (address : option (list N)) : list N :=
  match address with
  | None | Some [] => str "Not connected"
  | Some a => slice a 0 6 ++ str "..." ++ slice_from a (-4)
  end.

(** [ethers.ZeroAddress] *)
Definition ZERO_ADDRESS : list N :=
  str "0x0000000000000000000000000000000000000000".

(** [formatContractAddress(address, label)] *)
Definition formatContractAddress (address label : list N) : list N :=
  if decide (address = ZERO_ADDRESS) then str "Set " ++ label ++ str " address"
  else slice address 0 6 ++ str "..." ++ slice_from address (-4).

(** The code units [trim] removes: the white space and the line
    terminators of ECMAScript. *)
Definition is_space (c : N) : bool :=
  ((9 <=? c) && (c <=? 13) || (c =? 32) || (c =? 160) || (c =? 5760)
   || (8192 <=? c) && (c <=? 8202) || (c =? 8232) || (c =? 8233)
   || (c =? 8239) || (c =? 8287) || (c =? 12288) || (c =? 65279))%N.

Fixpoint trimStart (s : list N) : list N :=
  match s with
  | [] => []
  | c :: rest => if is_space c then trimStart rest else s
  end.

Definition trimEnd (s : list N) : list N := rev (trimStart (rev s)).

(** [s.trim()] *)
Definition trim (s : list N) : list N := trimEnd (trimStart s).

(** The errors [parseAmount] throws itself, and the one it lets through
    from [ethers.parseEther]. *)
Inductive AmountError : Type :=
  | EnterAnAmount
  | AmountMustBeGreaterThanZero
  | ParseEtherFailed.

Section Parse.

(** [ethers.parseEther] belongs to a library: it is a parameter here, giving
    the parsed [bigint] or nothing when it throws. *)
Variable parseEther : list N -> option Z.

(** [parseAmount(value)] *)
Definition parseAmount (value : list N) : AmountError + Z :=
  let trimmed := trim value in
  match trimmed with
  | [] => inl EnterAnAmount
  | _ =>
      match parseEther trimmed with
      | None => inl ParseEtherFailed
      | Some parsed =>
          if parsed <=? 0 then inl AmountMustBeGreaterThanZero
          else inr parsed
      end
  end.

End Parse.



(** [ethers.ZeroHash] *)
Definition ZERO_HANDLE : list N :=
  str "0x0000000000000000000000000000000000000000000000000000000000000000".

(** [handle && handle !== ZERO_HANDLE], for a handle that may be
    [undefined]: the empty string is falsy too. *)
Definition live (handle : option (list N)) : bool :=
  match handle with
  | None | Some [] => false
  | Some h => negb (bool_decide (h = ZERO_HANDLE))
  end.

(** [Array.from(new Set(items))]: the first occurrence of each item, in
    order. *)
Fixpoint distinct (items : list (list N)) : list (list N) :=
  match items with
  | [] => []
  | x :: rest => x :: filter (λ y, y ≠ x) (distinct rest)
  end.

Section Decrypt.

(** The two addresses come from the configuration module, which is not
    among the sources. *)
Variables CRYPTO_SHIELD_ADDRESS CZAMA_ADDRESS : list N.

(** The handles [decryptBalances] asks to decrypt, each with the contract
    it belongs to. *)
Definition handleContractPairs
    (stakeHandle debtHandle balanceHandle : option (list N))
    : list (list N * list N) :=
  let pairs := [] in
  let pairs :=
    if live stakeHandle
    then pairs ++ [(default [] stakeHandle, CRYPTO_SHIELD_ADDRESS)]
    else pairs in
  let pairs :=
    if live debtHandle
    then pairs ++ [(default [] debtHandle, CRYPTO_SHIELD_ADDRESS)]
    else pairs in
  let pairs :=
    if live balanceHandle
    then pairs ++ [(default [] balanceHandle, CZAMA_ADDRESS)]
    else pairs in
  pairs.

Definition contractAddresses (pairs : list (list N * list N))
    : list (list N) :=
  distinct (snd <$> pairs).

End Decrypt.

End ShieldApp.

(** * Proofs *)

(** ** Arithmetic of the encrypted primitives *)

Section Primitives.

Local Ltac arith :=
  unfold is_uint64, is_uint256, uint64_max, uint256_max in *;
  Z.to_euclidean_division_equations; lia.

Lemma is_uint64_mod (x : Z) : is_uint64 (x mod 2 ^ 64).
Proof. arith. Qed.

Lemma mod_uint64 (x : Z) : is_uint64 x -> x mod 2 ^ 64 = x.
Proof. intros H. apply Z.mod_small. arith. Qed.

Lemma asEuint64_uint64 (x : Z) : is_uint64 x -> FHE.asEuint64 x = x.
Proof. apply mod_uint64. Qed.

Lemma to_uint64_uint64 (x : Z) : is_uint64 x -> to_uint64 x = x.
Proof. apply mod_uint64. Qed.

(** [FHE.asEuint64(uint64(x))] keeps an amount that fits in 64 bits. *)
Lemma encode_uint64 (x : Z) :
  is_uint64 x -> FHE.asEuint64 (to_uint64 x) = x.
Proof.
  intros H. rewrite (to_uint64_uint64 x H). now apply asEuint64_uint64.
Qed.

Lemma sub_zero (x : Z) : is_uint64 x -> FHE.sub x 0 = x.
Proof. intros H. unfold FHE.sub. rewrite Z.sub_0_r. now apply mod_uint64. Qed.

(** On 64-bit operands the safe increase is the sum when it fits, and the
    old value otherwise. *)
Lemma tryIncrease_spec (a b : Z) :
  is_uint64 a -> is_uint64 b ->
  FHESafeMath.tryIncrease a b =
    (a + b <=? uint64_max, if a + b <=? uint64_max then a + b else a).
Proof.
  intros Ha Hb. unfold FHESafeMath.tryIncrease, FHE.select, FHE.ge, FHE.add.
  destruct (Z.leb_spec (a + b) uint64_max) as [Hfit | Hover].
  - rewrite Z.mod_small by arith.
    destruct (Z.leb_spec a (a + b)); [reflexivity | arith].
  - destruct (Z.leb_spec a ((a + b) mod 2 ^ 64)); [arith | reflexivity].
Qed.

(** On 64-bit operands the safe decrease is the difference when the amount
    is covered, and the old value otherwise. *)
Lemma tryDecrease_spec (a b : Z) :
  is_uint64 a -> is_uint64 b ->
  FHESafeMath.tryDecrease a b = (b <=? a, if b <=? a then a - b else a).
Proof.
  intros Ha Hb. unfold FHESafeMath.tryDecrease, FHE.select, FHE.ge, FHE.sub.
  destruct (Z.leb_spec b a); [| reflexivity].
  rewrite Z.mod_small by arith. reflexivity.
Qed.

Lemma proof_ok_spec (this sender h : Z) (p : inputProof) :
  proof_ok this sender h p = true <->
  proof_handle p = h /\ proof_contract p = this /\ proof_user p = sender
  /\ is_uint64 (proof_clear p).
Proof.
  unfold proof_ok, is_uint64.
  rewrite !andb_true_iff, !Z.eqb_eq, !Z.leb_le. tauto.
Qed.

End Primitives.

(** ** Reading the world *)

Lemma rd_insert (m : gmap Z Z) (a b : Z) (v : Z) :
  rd (<[a := v]> m) b = if decide (a = b) then v else rd m b.
Proof.
  unfold rd. rewrite lookup_insert. destruct (decide (a = b)); reflexivity.
Qed.

Lemma rd_empty (a : Z) : rd ∅ a = 0.
Proof. unfold rd. rewrite lookup_empty. reflexivity. Qed.

(** ** Symbolic execution of the entry points

    The bodies are straight-line code with plaintext gates.  The tactics
    below open the world record, unfold the monad, and decide the gates one
    by one; the encrypted primitives are kept folded and rewritten with
    their equations. *)

#[local] Arguments FHE.add : simpl never.
#[local] Arguments FHE.sub : simpl never.
#[local] Arguments FHE.asEuint64 : simpl never.
#[local] Arguments FHE.select : simpl never.
#[local] Arguments FHE.le : simpl never.
#[local] Arguments FHE.ge : simpl never.
#[local] Arguments FHE.and : simpl never.
#[local] Arguments FHESafeMath.tryIncrease : simpl never.
#[local] Arguments FHESafeMath.tryDecrease : simpl never.
#[local] Arguments proof_ok : simpl never.
#[local] Arguments to_uint64 : simpl never.
#[local] Arguments uint64_max : simpl never.
#[local] Arguments uint256_max : simpl never.
#[local] Arguments rd : simpl never.
#[local] Arguments Z.add : simpl never.
#[local] Arguments Z.sub : simpl never.
#[local] Arguments Z.leb : simpl never.
#[local] Arguments Z.ltb : simpl never.
#[local] Arguments Z.gtb : simpl never.
#[local] Arguments Z.eqb : simpl never.

Ltac unfold_ops :=
  unfold transact, call, execute, discard,
    CryptoShield.stake, CryptoShield.withdraw, CryptoShield.borrow,
    CryptoShield.repay, CZama.mint, CZama.burnFrom, CZama.updateMinter,
    CZama._mint, CZama._burn, CZama.this, fromExternal,
    checked_add, checked_sub, send_value, receive_value, emit, allow,
    set_stakedPlain, set_stakedEncrypted, set_debtEncrypted, set_balance,
    set_minter, set_shield, set_ledger, modify, gets, revert,
    mbind, mret, M_bind, M_ret, bind, ret in *.

Ltac unfold_views :=
  unfold same_setup, wired, plainStake, encryptedStake, encryptedDebt,
    encryptedBalance in *.

Ltac open_world w :=
  destruct w as [this [token stakedEnc debtEnc stakedPlain]
                 [owner minter balances] eth grants evs].

(* Decide one comparison or one conditional of the goal. *)
Ltac case_cond :=
  match goal with
  | |- context [?x =? ?y] => destruct (Z.eqb_spec x y)
  | |- context [?x <=? ?y] => destruct (Z.leb_spec x y)
  | |- context [?x <? ?y] => destruct (Z.ltb_spec x y)
  | |- context [?x >? ?y] => rewrite (Z.gtb_ltb x y)
  | |- context [proof_ok ?t ?s ?h ?p] =>
      let E := fresh "E" in
      destruct (proof_ok t s h p) eqn:E;
      [ pose proof (proj1 (proof_ok_spec t s h p) E) as (_ & _ & _ & ?) |]
  | |- context [if ?c then _ else _] =>
      lazymatch c with
      | decide _ => destruct c
      | _ => let E := fresh "E" in destruct c eqn:E
      end
  end.

(* Linear arithmetic over the bounds of the integer types. *)
Ltac range :=
  unfold is_uint64, is_uint256, uint64_max, uint256_max in *; lia.

(* Range side conditions of the primitives' equations. *)
Ltac side :=
  first [ assumption | solve [auto using is_uint64_mod] | range ].

(* Run a body to its end, splitting on every gate. *)
Ltac run :=
  repeat first
    [ progress cbn
    | match goal with
      | |- context [FHE.asEuint64 (to_uint64 ?v)] =>
          rewrite (encode_uint64 v) by range
      end
    | rewrite tryIncrease_spec by side
    | rewrite tryDecrease_spec by side
    | case_cond; try range; try congruence ].

(* Re-establish the invariant on the world a run ended in. *)
Ltac wf_goal :=
  match goal with
  | Hp : forall a, is_uint64 (rd ?sp a),
    Hm : forall a, rd ?se a = rd ?sp a,
    Hd : forall a, is_uint64 (rd ?de a),
    Hb : forall a, is_uint64 (rd ?bal a) |- wf _ =>
      split; unfold_views; cbn; try assumption; try range;
      let x := fresh "x" in
      intros x; rewrite ?rd_insert; repeat case_cond; subst;
      try apply Hp; try apply Hm; try apply Hd; try apply Hb;
      try apply is_uint64_mod;
      try (pose proof (Hp x); pose proof (Hm x); pose proof (Hd x);
           pose proof (Hb x); range)
  end.

(** ** What each entry point does when it goes through *)

Section Effects.

Variable w : World.
Hypothesis Hwf : wf w.

Lemma stake_effect (sender value : Z) :
  0 < value -> plainStake w sender + value <= uint64_max ->
  let r := CryptoShield.stake sender value w in
  fst r = Ok tt
  /\ (forall a, plainStake (snd r) a =
        if decide (sender = a) then plainStake w sender + value
        else plainStake w a)
  /\ (forall a, encryptedStake (snd r) a =
        if decide (sender = a) then encryptedStake w sender + value
        else encryptedStake w a)
  /\ (forall a, encryptedDebt (snd r) a = encryptedDebt w a)
  /\ (forall a, encryptedBalance (snd r) a = encryptedBalance w a)
  /\ ethBalance (snd r) = ethBalance w + value
  /\ same_setup w (snd r).
Proof.
  intros Hpos Hfit.
  pose proof (wf_plain w Hwf sender) as Hp.
  pose proof (wf_mirror w Hwf sender) as Hm.
  assert (Hv : is_uint64 value) by range.
  assert (He : is_uint64 (encryptedStake w sender)) by (rewrite Hm; exact Hp).
  open_world w. unfold_ops. unfold_views. cbn in *.
  rewrite (encode_uint64 value Hv).
  run.
  repeat split; intros; rewrite ?rd_insert, ?Hm; reflexivity.
Qed.

Lemma withdraw_effect (sender amount : Z) (accepts : bool) :
  0 < amount -> amount <= plainStake w sender ->
  accepts = true -> amount <= ethBalance w ->
  let r := CryptoShield.withdraw sender amount accepts w in
  fst r = Ok tt
  /\ (forall a, plainStake (snd r) a =
        if decide (sender = a) then plainStake w sender - amount
        else plainStake w a)
  /\ (forall a, encryptedStake (snd r) a =
        if decide (sender = a) then encryptedStake w sender - amount
        else encryptedStake w a)
  /\ (forall a, encryptedDebt (snd r) a = encryptedDebt w a)
  /\ (forall a, encryptedBalance (snd r) a = encryptedBalance w a)
  /\ ethBalance (snd r) = ethBalance w - amount
  /\ same_setup w (snd r).
Proof.
  intros Hpos Hle -> Heth.
  pose proof (wf_plain w Hwf sender) as Hp.
  pose proof (wf_mirror w Hwf sender) as Hm.
  assert (Hv : is_uint64 amount) by range.
  assert (He : is_uint64 (encryptedStake w sender)) by (rewrite Hm; exact Hp).
  open_world w. unfold_ops. unfold_views. cbn in *.
  rewrite (encode_uint64 amount Hv).
  run.
  repeat split; intros; rewrite ?rd_insert, ?Hm; reflexivity.
Qed.

Lemma borrow_effect (sender h : Z) (p : inputProof) :
  wired w -> plainStake w sender <> 0 ->
  proof_ok (shieldAddr w) sender h p = true ->
  let r := CryptoShield.borrow sender h p w in
  let a := proof_clear p in
  let d := encryptedDebt w sender in
  let ok := canBorrow d a (encryptedStake w sender) in
  fst r = Ok tt
  /\ (forall x, encryptedDebt (snd r) x =
        if decide (sender = x) then (if ok then d + a else d)
        else encryptedDebt w x)
  /\ (forall x, encryptedBalance (snd r) x =
        if decide (sender = x)
        then FHE.add (encryptedBalance w sender) (if ok then a else 0)
        else encryptedBalance w x)
  /\ events (snd r) = Borrowed sender (if ok then a else 0) :: events w
  /\ (forall x, plainStake (snd r) x = plainStake w x)
  /\ (forall x, encryptedStake (snd r) x = encryptedStake w x)
  /\ ethBalance (snd r) = ethBalance w
  /\ same_setup w (snd r).
Proof.
  intros Hwired Hstake Hproof.
  pose proof (wf_debt w Hwf sender) as Hd.
  apply proof_ok_spec in Hproof as Hp. destruct Hp as (_ & _ & _ & Ha).
  open_world w. unfold_ops. unfold_views. unfold canBorrow. cbn in *.
  subst minter.
  change (FHE.asEuint64 0) with 0.
  unfold FHE.select, FHE.and, FHE.le.
  run.
  all: repeat split; intros; rewrite ?rd_insert; reflexivity.
Qed.

Lemma repay_effect (sender h : Z) (p : inputProof) :
  wired w -> proof_ok (shieldAddr w) sender h p = true ->
  let r := CryptoShield.repay sender h p w in
  let a := proof_clear p in
  let d := encryptedDebt w sender in
  fst r = Ok tt
  /\ (forall x, encryptedDebt (snd r) x =
        if decide (sender = x) then (if a <=? d then d - a else d)
        else encryptedDebt w x)
  /\ (forall x, encryptedBalance (snd r) x =
        if decide (sender = x)
        then FHE.sub (encryptedBalance w sender) (if a <=? d then a else 0)
        else encryptedBalance w x)
  /\ events (snd r) = Repaid sender (if a <=? d then a else 0) :: events w
  /\ (forall x, plainStake (snd r) x = plainStake w x)
  /\ (forall x, encryptedStake (snd r) x = encryptedStake w x)
  /\ ethBalance (snd r) = ethBalance w
  /\ same_setup w (snd r).
Proof.
  intros Hwired Hproof.
  pose proof (wf_debt w Hwf sender) as Hd.
  apply proof_ok_spec in Hproof as Hp. destruct Hp as (_ & _ & _ & Ha).
  open_world w. unfold_ops. unfold_views. cbn in *.
  subst minter.
  change (FHE.asEuint64 0) with 0.
  unfold FHE.select.
  run.
  all: repeat split; intros; rewrite ?rd_insert; reflexivity.
Qed.

End Effects.

(** A successful [call] is the run itself. *)
Lemma call_ok {A} (m : M A) (w : World) (a : A) :
  fst (m w) = Ok a -> call m w = m w.
Proof.
  unfold call. destruct (m w) as [[x | e] w']; cbn; [reflexivity | discriminate].
Qed.

Lemma call_fst {A} (m : M A) (w : World) : fst (call m w) = fst (m w).
Proof. unfold call. destruct (m w) as [[x | e] w']; reflexivity. Qed.

Lemma call_revert {A} (m : M A) (w : World) (e : Error) :
  fst (m w) = Revert e -> call m w = (Revert e, w).
Proof.
  unfold call. destruct (m w) as [[x | e'] w']; cbn; [discriminate |].
  now intros [= ->].
Qed.

(** ** The invariant holds in every reachable world *)

Lemma genesis_wf (deployer initialMinter vault token : Z) :
  wf (genesis deployer initialMinter vault token).
Proof.
  split; unfold_views; cbn; intros; rewrite ?rd_empty; range.
Qed.

Lemma transact_wf (tx : Tx) (w : World) :
  wf w -> well_typed tx -> wf (transact tx w).
Proof.
  intros Hwf Hty. pose proof Hwf as [Hp Hm Hd Hb He].
  open_world w. destruct tx; unfold_ops; unfold_views; cbn in *.
  - pose proof (Hp sender). pose proof (Hm sender).
    assert (is_uint64 (rd stakedEnc sender)) by congruence.
    run; try assumption; wf_goal.
  - pose proof (Hp sender). pose proof (Hm sender).
    assert (is_uint64 (rd stakedEnc sender)) by congruence.
    run; try assumption; wf_goal.
  - unfold FHE.select, FHE.and, FHE.le.
    run; try assumption; wf_goal.
  - run; try assumption; wf_goal.
  - run; try assumption; wf_goal.
  - run; try assumption; wf_goal.
  - run; try assumption; wf_goal.
  - run; try assumption; wf_goal.
Qed.

Lemma reachable_wf (w : World) : reachable w -> wf w.
Proof.
  induction 1 as [deployer initialMinter vault token _ | w tx _ IH Hty].
  - apply genesis_wf.
  - now apply transact_wf.
Qed.

(** A successful transaction ends in the world its body produced. *)
Lemma transact_ok (tx : Tx) (w : World) :
  fst (execute tx w) = Ok tt -> transact tx w = snd (execute tx w).
Proof. intros H. unfold transact. now rewrite (call_ok _ _ _ H). Qed.

Lemma ok_wf (tx : Tx) (w : World) :
  wf w -> well_typed tx -> fst (execute tx w) = Ok tt ->
  wf (snd (execute tx w)).
Proof.
  intros Hwf Hty Hok. rewrite <- (transact_ok tx w Hok).
  now apply transact_wf.
Qed.

(** Sequencing after a transaction that went through. *)
Lemma then_call_ok {B} (m : M unit) (k : M B) (w : World) :
  fst (m w) = Ok tt -> (call m ;; k) w = k (snd (m w)).
Proof.
  intros Hok. unfold mbind, M_bind, bind, call.
  destruct (m w) as [[[] | e] w']; cbn in *; [reflexivity | discriminate].
Qed.

Lemma genesis_collateralised (deployer initialMinter vault token : Z) :
  collateralised (genesis deployer initialMinter vault token).
Proof. intros a. unfold_views. cbn. rewrite !rd_empty. lia. Qed.

(* The same for the collateralisation predicate. *)
Ltac cover_goal :=
  match goal with
  | Hc : forall a, rd ?de a <= rd ?se a |- collateralised _ =>
      let x := fresh "x" in
      intros x; unfold_views; cbn; rewrite ?rd_insert;
      repeat case_cond; subst; try apply Hc;
      try (pose proof (Hc x); range)
  end.

Lemma transact_collateralised (tx : Tx) (w : World) :
  wf w -> well_typed tx -> collateralised w -> keeps_cover tx w ->
  collateralised (transact tx w).
Proof.
  intros Hwf Hty Hc Hk. pose proof Hwf as [Hp Hm Hd Hb He].
  unfold collateralised in Hc.
  open_world w. destruct tx; unfold keeps_cover in Hk;
    unfold_ops; unfold_views; cbn in *.
  - pose proof (Hp sender). pose proof (Hm sender).
    assert (is_uint64 (rd stakedEnc sender)) by congruence.
    run; try assumption; cover_goal.
  - pose proof (Hp sender). pose proof (Hm sender). pose proof (Hd sender).
    assert (is_uint64 (rd stakedEnc sender)) by congruence.
    run; try assumption; cover_goal.
  - unfold FHE.select, FHE.and, FHE.le.
    run; try assumption; cover_goal.
  - pose proof (Hc sender). pose proof (Hd sender).
    run; try assumption; cover_goal.
  - run; try assumption; cover_goal.
  - run; try assumption; cover_goal.
  - run; try assumption; cover_goal.
  - run; try assumption; cover_goal.
Qed.

Lemma transact_covered (tx : Tx) (w : World) (a : Z) :
  wf w -> well_typed tx ->
  encryptedDebt w a <= encryptedStake w a -> keeps_cover_of tx w a ->
  encryptedDebt (transact tx w) a <= encryptedStake (transact tx w) a.
Proof.
  intros Hwf Hty Hc Hk. pose proof Hwf as [Hp Hm Hd Hb He].
  pose proof (Hp a) as Hpa. pose proof (Hm a) as Hma.
  pose proof (Hd a) as Hda.
  open_world w. destruct tx; unfold keeps_cover_of in Hk;
    unfold_ops; unfold_views; cbn in *.
  - pose proof (Hp sender). pose proof (Hm sender).
    assert (is_uint64 (rd stakedEnc sender)) by congruence.
    run; try assumption; rewrite ?rd_insert; repeat case_cond; subst;
      try assumption; range.
  - pose proof (Hp sender). pose proof (Hm sender).
    assert (is_uint64 (rd stakedEnc sender)) by congruence.
    run; try assumption; rewrite ?rd_insert; repeat case_cond; subst;
      try assumption; range.
  - unfold FHE.select, FHE.and, FHE.le.
    run; try assumption; rewrite ?rd_insert; repeat case_cond; subst;
      try assumption; range.
  - pose proof (Hd sender).
    run; try assumption; rewrite ?rd_insert; repeat case_cond; subst;
      try assumption; range.
  - run; assumption.
  - run; assumption.
  - run; assumption.
  - run; assumption.
Qed.

(** ** The demonstration worlds are reachable *)

Lemma demo_fresh_reachable : reachable Demo.fresh.
Proof. apply reach_genesis. discriminate. Qed.

Lemma demo_staked_reachable : reachable Demo.staked.
Proof. apply reach_step; [apply demo_fresh_reachable | cbn; range]. Qed.

Lemma demo_indebted_reachable : reachable Demo.indebted.
Proof. apply reach_step; [apply demo_staked_reachable | exact I]. Qed.

(** ** The claims *)

(** C1, as the specification states it, fails: after staking 10 and
    borrowing 10, a withdrawal of 10 goes through and leaves a debt of 10
    against a stake of 0. *)
Lemma withdraw_breaks_collateralised :
  reachable Demo.indebted
  /\ collateralised Demo.indebted
  /\ well_typed (TxWithdraw Demo.alice 10 true)
  /\ fst (call (execute (TxWithdraw Demo.alice 10 true)) Demo.indebted) = Ok tt
  /\ ~ collateralised (transact (TxWithdraw Demo.alice 10 true) Demo.indebted).
Proof.
  split; [apply demo_indebted_reachable |].
  split.
  { apply transact_collateralised; try exact I.
    - apply reachable_wf, demo_staked_reachable.
    - apply transact_collateralised; try exact I.
      + apply reachable_wf, demo_fresh_reachable.
      + cbn; range.
      + apply genesis_collateralised. }
  split; [cbn; range |].
  split; [vm_compute; reflexivity |].
  intros H. specialize (H Demo.alice). vm_compute in H. now apply H.
Qed.

(** C1 (amended): for every account and every reachable state, whatever
    holds for the other accounts: [stake], [borrow] and [repay] (and the
    ledger's own entry points, and a [withdraw] by another account)
    preserve [debt <= stake] on that account's record, and so does a
    [withdraw] by the account itself whose amount leaves its stake at or
    above its debt. *)
Theorem collateralised_preserved (w : World) (tx : Tx) (a : Z) :
  reachable w -> well_typed tx ->
  encryptedDebt w a <= encryptedStake w a -> keeps_cover_of tx w a ->
  encryptedDebt (transact tx w) a <= encryptedStake (transact tx w) a.
Proof.
  intros Hr. apply transact_covered. now apply reachable_wf.
Qed.

(** The theorem applies where the predicate fails for someone else: after
    the withdrawal of the counterexample, a stake by another account keeps
    that account covered. *)
Lemma collateralised_preserved_witness :
  encryptedDebt
    (transact (TxStake Demo.deployer 5)
       (transact (TxWithdraw Demo.alice 10 true) Demo.indebted))
    Demo.deployer
  <= encryptedStake
       (transact (TxStake Demo.deployer 5)
          (transact (TxWithdraw Demo.alice 10 true) Demo.indebted))
       Demo.deployer.
Proof.
  apply (collateralised_preserved
           (transact (TxWithdraw Demo.alice 10 true) Demo.indebted)
           (TxStake Demo.deployer 5) Demo.deployer).
  - apply reach_step; [apply demo_indebted_reachable | cbn; range].
  - cbn; range.
  - vm_compute; discriminate.
  - exact I.
Defined.

(** C2: for a caller with a positive plain stake and a validated amount [a],
    [borrow] succeeds whatever the collateral check says; it stores
    [d + a] as the debt when [d + a] fits in 64 bits and is covered by the
    stake, and [d] otherwise, and mints [a], respectively [0], to the caller
    on the ledger. *)
Theorem borrow_selects (w : World) (c h : Z) (p : inputProof) :
  reachable w -> wired w -> 0 < plainStake w c ->
  proof_ok (shieldAddr w) c h p = true ->
  let r := call (CryptoShield.borrow c h p) w in
  let a := proof_clear p in
  let d := encryptedDebt w c in
  let s := encryptedStake w c in
  let ok := (d + a <=? uint64_max) && (d + a <=? s) in
  fst r = Ok tt
  /\ encryptedDebt (snd r) c = (if ok then d + a else d)
  /\ encryptedBalance (snd r) c =
       FHE.add (encryptedBalance w c) (if ok then a else 0)
  /\ events (snd r) = Borrowed c (if ok then a else 0) :: events w.
Proof.
  intros Hr Hw Hs Hp.
  assert (Hnz : plainStake w c <> 0) by lia.
  destruct (borrow_effect w (reachable_wf w Hr) c h p Hw Hnz Hp)
    as (Hok & Hdebt & Hbal & Hev & _).
  cbn zeta. rewrite (call_ok _ _ _ Hok).
  rewrite Hdebt, Hbal, Hev. unfold canBorrow.
  destruct (decide (c = c)); [auto | contradiction].
Qed.

Lemma borrow_selects_witness :
  fst (call (CryptoShield.borrow Demo.alice 7 (Demo.input 11)) Demo.staked)
    = Ok tt
  /\ encryptedDebt
       (snd (call (CryptoShield.borrow Demo.alice 7 (Demo.input 11))
               Demo.staked)) Demo.alice = 0.
Proof.
  destruct (borrow_selects Demo.staked Demo.alice 7 (Demo.input 11))
    as (Hok & Hdebt & _).
  - apply demo_staked_reachable.
  - reflexivity.
  - vm_compute; reflexivity.
  - vm_compute; reflexivity.
  - split; [exact Hok |]. rewrite Hdebt. vm_compute; reflexivity.
Defined.

(** The wiring matters: while the ledger's minter is another address, the
    ledger refuses the vault, and the refusal undoes the whole borrow or
    repayment. *)
Lemma unwired_vault_is_refused (w : World) (c h : Z) (p : inputProof) :
  wf w -> ~ wired w ->
  proof_ok (shieldAddr w) c h p = true ->
  (plainStake w c <> 0 ->
   call (CryptoShield.borrow c h p) w
     = (Revert (UnauthorizedMinter (shieldAddr w)), w))
  /\ call (CryptoShield.repay c h p) w
       = (Revert (UnauthorizedMinter (shieldAddr w)), w).
Proof.
  intros Hwf Hw Hp.
  pose proof (wf_debt w Hwf c) as Hd.
  open_world w. unfold_ops. unfold_views. unfold FHE.select. cbn in *.
  split; [intros Hs |]; run; reflexivity.
Qed.

(** Before the roll-back, the failed withdrawal had already lowered the plain
    stake: the atomicity below is the work of the transaction boundary. *)
Lemma withdraw_dirty_before_rollback :
  fst (CryptoShield.withdraw Demo.alice 4 false Demo.staked)
    = Revert EthTransferFailed
  /\ plainStake (snd (CryptoShield.withdraw Demo.alice 4 false Demo.staked))
       Demo.alice = 6.
Proof. split; vm_compute; reflexivity. Qed.

(** C3: when the transfer at the end of [withdraw] fails, the call fails with
    [EthTransferFailed] and the world is the one of before the call; in
    particular the plain and the encrypted stake are unchanged. *)
Theorem withdraw_atomic (w : World) (c amount : Z) (accepts : bool) :
  0 < amount -> amount <= plainStake w c -> amount <= uint64_max ->
  accepts && (amount <=? ethBalance w) = false ->
  let r := call (CryptoShield.withdraw c amount accepts) w in
  r = (Revert EthTransferFailed, w)
  /\ plainStake (snd r) c = plainStake w c
  /\ encryptedStake (snd r) c = encryptedStake w c.
Proof.
  intros Hpos Hle Hmax Hfail.
  assert (Hrun : fst (CryptoShield.withdraw c amount accepts w)
                 = Revert EthTransferFailed).
  { open_world w. unfold_ops. unfold_views. cbn in *.
    repeat first
      [ progress cbn
      | rewrite Hfail
      | match goal with
        | |- context [FHESafeMath.tryDecrease ?x ?y] =>
            destruct (FHESafeMath.tryDecrease x y) as [flag updated]
        end
      | case_cond; try lia ].
    reflexivity. }
  cbn zeta. rewrite (call_revert _ _ _ Hrun). auto.
Qed.

Lemma withdraw_atomic_witness :
  call (CryptoShield.withdraw Demo.alice 4 false) Demo.staked
    = (Revert EthTransferFailed, Demo.staked).
Proof.
  apply (withdraw_atomic Demo.staked Demo.alice 4 false).
  - lia.
  - vm_compute; discriminate.
  - vm_compute; discriminate.
  - reflexivity.
Defined.

(** C4: in every reachable state, after a successful [stake] and after a
    successful [withdraw], the encrypted stake of every account equals its
    plain stake, which lies in the 64-bit domain. *)
Theorem stake_mirror (w : World) (c amount : Z) (accepts : bool) (tx : Tx) :
  reachable w ->
  tx = TxStake c amount \/ tx = TxWithdraw c amount accepts ->
  is_uint256 amount ->
  fst (call (execute tx) w) = Ok tt ->
  forall a,
    encryptedStake (snd (call (execute tx) w)) a
      = plainStake (snd (call (execute tx) w)) a
    /\ plainStake (snd (call (execute tx) w)) a <= uint64_max.
Proof.
  intros Hr Htx Hty _ a.
  assert (Hwf : wf (transact tx w)).
  { apply transact_wf; [now apply reachable_wf |].
    destruct Htx as [-> | ->]; exact Hty. }
  split; [apply (wf_mirror _ Hwf) | apply (wf_plain _ Hwf)].
Qed.

Lemma stake_mirror_witness :
  encryptedStake Demo.staked Demo.alice = plainStake Demo.staked Demo.alice
  /\ plainStake Demo.staked Demo.alice <= uint64_max.
Proof.
  apply (stake_mirror Demo.fresh Demo.alice 10 true (TxStake Demo.alice 10)).
  - apply demo_fresh_reachable.
  - left; reflexivity.
  - range.
  - vm_compute; reflexivity.
Defined.

(** C5: from a fresh account, with [0 < s <= 2^64-1] and [0 < b <= s], the
    sequence stake [s], borrow [b], repay [b], withdraw [s] succeeds and
    leaves the plain stake, the encrypted stake and the debt at zero. *)
Theorem round_trip_returns_to_zero (w : World) (c s b h1 h2 : Z)
    (p1 p2 : inputProof) :
  reachable w -> wired w ->
  plainStake w c = 0 -> encryptedDebt w c = 0 ->
  0 < s <= uint64_max -> 0 < b <= s ->
  proof_ok (shieldAddr w) c h1 p1 = true -> proof_clear p1 = b ->
  proof_ok (shieldAddr w) c h2 p2 = true -> proof_clear p2 = b ->
  let r := round_trip c s h1 p1 h2 p2 w in
  fst r = Ok tt
  /\ plainStake (snd r) c = 0
  /\ encryptedStake (snd r) c = 0
  /\ encryptedDebt (snd r) c = 0.
Proof.
  intros Hr Hwired Hplain Hdebt Hs Hb Hp1 Hb1 Hp2 Hb2.
  pose proof (reachable_wf w Hr) as Hwf.
  pose proof (wf_mirror w Hwf c) as Hmir. rewrite Hplain in Hmir.
  pose proof (wf_eth w Hwf) as Heth.
  (* stake *)
  assert (Hfit : plainStake w c + s <= uint64_max) by (rewrite Hplain; lia).
  destruct (stake_effect w Hwf c s (proj1 Hs) Hfit)
    as (Ok1 & P1 & S1 & D1 & _ & E1 & U1).
  set (w1 := snd (CryptoShield.stake c s w)) in *.
  assert (Hwf1 : wf w1).
  { apply (ok_wf (TxStake c s) w Hwf); [cbn; range | exact Ok1]. }
  assert (Hwired1 : wired w1).
  { unfold wired in *. destruct U1 as (-> & _ & _ & ->). exact Hwired. }
  assert (Haddr1 : shieldAddr w1 = shieldAddr w) by apply U1.
  specialize (P1 c). specialize (S1 c). specialize (D1 c).
  destruct (decide (c = c)) as [_ |]; [| contradiction].
  rewrite Hplain in P1. rewrite Hmir in S1. rewrite Hdebt in D1.
  (* borrow *)
  assert (Hstaked : plainStake w1 c <> 0) by lia.
  rewrite <- Haddr1 in Hp1.
  destruct (borrow_effect w1 Hwf1 c h1 p1 Hwired1 Hstaked Hp1)
    as (Ok2 & D2 & _ & _ & P2 & S2 & E2 & U2).
  set (w2 := snd (CryptoShield.borrow c h1 p1 w1)) in *.
  assert (Hwf2 : wf w2).
  { apply (ok_wf (TxBorrow c h1 p1) w1 Hwf1); [exact I | exact Ok2]. }
  assert (Hwired2 : wired w2).
  { unfold wired in *. destruct U2 as (-> & _ & _ & ->). exact Hwired1. }
  assert (Haddr2 : shieldAddr w2 = shieldAddr w) by (rewrite <- Haddr1; apply U2).
  specialize (D2 c). specialize (P2 c). specialize (S2 c).
  destruct (decide (c = c)) as [_ |]; [| contradiction].
  rewrite D1, S1, Hb1 in D2. unfold canBorrow in D2.
  destruct (Z.leb_spec (0 + b) uint64_max); [| lia].
  destruct (Z.leb_spec (0 + b) (0 + s)); [| lia].
  cbn in D2.
  (* repay *)
  rewrite <- Haddr2 in Hp2.
  destruct (repay_effect w2 Hwf2 c h2 p2 Hwired2 Hp2)
    as (Ok3 & D3 & _ & _ & P3 & S3 & E3 & U3).
  set (w3 := snd (CryptoShield.repay c h2 p2 w2)) in *.
  assert (Hwf3 : wf w3).
  { apply (ok_wf (TxRepay c h2 p2) w2 Hwf2); [exact I | exact Ok3]. }
  specialize (D3 c). specialize (P3 c). specialize (S3 c).
  destruct (decide (c = c)) as [_ |]; [| contradiction].
  rewrite D2, Hb2 in D3.
  destruct (Z.leb_spec b (0 + b)); [| lia].
  (* withdraw *)
  assert (Hcovered : s <= plainStake w3 c) by (rewrite P3, P2, P1; lia).
  assert (Hfunds : s <= ethBalance w3) by (rewrite E3, E2, E1; lia).
  destruct (withdraw_effect w3 Hwf3 c s true (proj1 Hs) Hcovered eq_refl Hfunds)
    as (Ok4 & P4 & S4 & D4 & _).
  specialize (D4 c). specialize (P4 c). specialize (S4 c).
  destruct (decide (c = c)) as [_ |]; [| contradiction].
  (* assemble *)
  cbn zeta. unfold round_trip.
  rewrite (then_call_ok _ _ w Ok1). fold w1.
  rewrite (then_call_ok _ _ w1 Ok2). fold w2.
  rewrite (then_call_ok _ _ w2 Ok3). fold w3.
  rewrite (call_ok _ _ _ Ok4).
  rewrite P4, S4, D4, S3, S2, S1, P3, P2, P1, D3.
  repeat split; [exact Ok4 | lia | lia | lia].
Qed.

Lemma round_trip_returns_to_zero_witness :
  fst (round_trip Demo.alice 10 7 (Demo.input 4) 8 (mkProof 8 4 500 1001)
         Demo.fresh) = Ok tt
  /\ plainStake
       (snd (round_trip Demo.alice 10 7 (Demo.input 4) 8
               (mkProof 8 4 500 1001) Demo.fresh)) Demo.alice = 0
  /\ encryptedStake
       (snd (round_trip Demo.alice 10 7 (Demo.input 4) 8
               (mkProof 8 4 500 1001) Demo.fresh)) Demo.alice = 0
  /\ encryptedDebt
       (snd (round_trip Demo.alice 10 7 (Demo.input 4) 8
               (mkProof 8 4 500 1001) Demo.fresh)) Demo.alice = 0.
Proof.
  apply (round_trip_returns_to_zero Demo.fresh Demo.alice 10 4 7 8
           (Demo.input 4) (mkProof 8 4 500 1001)).
  - apply demo_fresh_reachable.
  - reflexivity.
  - reflexivity.
  - reflexivity.
  - range.
  - lia.
  - reflexivity.
  - reflexivity.
  - reflexivity.
  - reflexivity.
Defined.

(** C6: for a caller with debt [d] and a validated amount [a], [repay]
    succeeds, stores [d - a] when [a <= d] and [d] otherwise, and burns [a],
    respectively [0], from the caller's ledger balance; a repayment above the
    debt leaves the debt and the balance as they were. *)
Theorem repay_selects (w : World) (c h : Z) (p : inputProof) :
  reachable w -> wired w ->
  proof_ok (shieldAddr w) c h p = true ->
  let r := call (CryptoShield.repay c h p) w in
  let a := proof_clear p in
  let d := encryptedDebt w c in
  fst r = Ok tt
  /\ encryptedDebt (snd r) c = (if a <=? d then d - a else d)
  /\ encryptedBalance (snd r) c =
       FHE.sub (encryptedBalance w c) (if a <=? d then a else 0)
  /\ events (snd r) = Repaid c (if a <=? d then a else 0) :: events w
  /\ (d < a ->
        encryptedDebt (snd r) c = d
        /\ encryptedBalance (snd r) c = encryptedBalance w c).
Proof.
  intros Hr Hw Hp.
  pose proof (reachable_wf w Hr) as Hwf.
  destruct (repay_effect w Hwf c h p Hw Hp) as (Hok & Hdebt & Hbal & Hev & _).
  cbn zeta. rewrite (call_ok _ _ _ Hok).
  rewrite Hdebt, Hbal, Hev.
  destruct (decide (c = c)); [| contradiction].
  split; [exact Hok |]. do 3 (split; [reflexivity |]). intros Hlt.
  destruct (Z.leb_spec (proof_clear p) (encryptedDebt w c)); [lia |].
  split; [reflexivity |]. apply sub_zero, (wf_balance w Hwf).
Qed.

Lemma repay_selects_witness :
  fst (call (CryptoShield.repay Demo.alice 7 (Demo.input 11)) Demo.indebted)
    = Ok tt
  /\ encryptedDebt
       (snd (call (CryptoShield.repay Demo.alice 7 (Demo.input 11))
               Demo.indebted)) Demo.alice = 10.
Proof.
  destruct (repay_selects Demo.indebted Demo.alice 7 (Demo.input 11))
    as (Hok & Hdebt & _).
  - apply demo_indebted_reachable.
  - reflexivity.
  - reflexivity.
  - split; [exact Hok |]. rewrite Hdebt. vm_compute; reflexivity.
Defined.

(** C7: for a caller without plain stake, [borrow] fails with [NoStake]
    whatever the handle and the proof are, and changes nothing: the gate is
    passed before the external ciphertext is decoded, so that nothing has
    been written even before the roll-back. *)
Theorem borrow_requires_stake (w : World) (c h : Z) (p : inputProof) :
  plainStake w c = 0 ->
  CryptoShield.borrow c h p w = (Revert NoStake, w)
  /\ call (CryptoShield.borrow c h p) w = (Revert NoStake, w).
Proof.
  intros Hzero.
  assert (Hrun : CryptoShield.borrow c h p w = (Revert NoStake, w)).
  { unfold CryptoShield.borrow, mbind, M_bind, bind, gets, revert.
    rewrite Hzero. reflexivity. }
  split; [exact Hrun |]. unfold call. rewrite Hrun. reflexivity.
Qed.

Lemma borrow_requires_stake_witness :
  call (CryptoShield.borrow Demo.alice 7 (Demo.input 3)) Demo.fresh
    = (Revert NoStake, Demo.fresh).
Proof.
  apply (borrow_requires_stake Demo.fresh Demo.alice 7 (Demo.input 3)).
  reflexivity.
Defined.

(** C8: on the ledger, [mint] and [burnFrom] fail with [UnauthorizedMinter]
    exactly when the caller is not the minter, and then change nothing; for
    the minter they update the balance of the account (by addition,
    respectively subtraction) and return the new balance. *)
Theorem minter_gate (w : World) (c acct amount : Z) :
  let m := CZamaStorage.minter (ledger w) in
  let minted := call (CZama.mint c acct amount) w in
  let burnt := call (CZama.burnFrom c acct amount) w in
  let plus := FHE.add (encryptedBalance w acct) amount in
  let minus := FHE.sub (encryptedBalance w acct) amount in
  (fst minted = Revert (UnauthorizedMinter c) <-> c <> m)
  /\ (fst burnt = Revert (UnauthorizedMinter c) <-> c <> m)
  /\ minted = (if decide (c = m) then (Ok plus, snd minted)
               else (Revert (UnauthorizedMinter c), w))
  /\ burnt = (if decide (c = m) then (Ok minus, snd burnt)
              else (Revert (UnauthorizedMinter c), w))
  /\ (forall x, encryptedBalance (snd minted) x =
        if decide (c = m /\ acct = x) then plus else encryptedBalance w x)
  /\ (forall x, encryptedBalance (snd burnt) x =
        if decide (c = m /\ acct = x) then minus else encryptedBalance w x).
Proof.
  open_world w. unfold_ops. unfold_views. cbn.
  destruct (Z.eqb_spec c minter) as [-> | Hne]; cbn.
  - destruct (decide (minter = minter)) as [_ |]; [| contradiction].
    repeat split; try (intros; congruence).
    all: intros x; rewrite rd_insert.
    all: destruct (decide (acct = x)), (decide (minter = minter /\ acct = x));
      tauto.
  - destruct (decide (c = minter)) as [| _]; [contradiction |].
    repeat split; try (intros; congruence).
    all: intros x; destruct (decide (c = minter /\ acct = x)); tauto.
Qed.

(** C9: in every reachable state the plain stake of an account is at most
    [2^64 - 1], so that [withdraw] never fails with [StakeTooLarge]: an
    amount that passes the [InsufficientStake] check is already within the
    bound. *)
Theorem withdraw_never_too_large (w : World) (c amount : Z) (accepts : bool) :
  reachable w ->
  plainStake w c <= uint64_max
  /\ fst (CryptoShield.withdraw c amount accepts w) <> Revert StakeTooLarge
  /\ fst (call (CryptoShield.withdraw c amount accepts) w)
       <> Revert StakeTooLarge.
Proof.
  intros Hr. pose proof (wf_plain w (reachable_wf w Hr) c) as Hp.
  split; [apply Hp |].
  rewrite call_fst.
  assert (fst (CryptoShield.withdraw c amount accepts w)
          <> Revert StakeTooLarge); [| tauto].
  open_world w. unfold_ops. unfold_views. cbn in *.
  repeat first
    [ progress cbn
    | match goal with
      | |- context [FHESafeMath.tryDecrease ?x ?y] =>
          destruct (FHESafeMath.tryDecrease x y) as [flag updated]
      end
    | case_cond; try range; try discriminate ].
Qed.

Lemma withdraw_never_too_large_witness :
  fst (call (CryptoShield.withdraw Demo.alice (2 ^ 70) true) Demo.staked)
    <> Revert StakeTooLarge.
Proof.
  apply (withdraw_never_too_large Demo.staked Demo.alice (2 ^ 70) true).
  apply demo_staked_reachable.
Defined.

(** C10: [repay] has no plaintext gate: for an account with no stake and no
    debt and a validated amount, it succeeds, leaves the debt at zero and
    burns zero, so that the ledger balance is unchanged. *)
Theorem repay_without_position (w : World) (c h : Z) (p : inputProof) :
  reachable w -> wired w ->
  plainStake w c = 0 -> encryptedDebt w c = 0 ->
  proof_ok (shieldAddr w) c h p = true ->
  let r := call (CryptoShield.repay c h p) w in
  fst r = Ok tt
  /\ encryptedDebt (snd r) c = 0
  /\ encryptedBalance (snd r) c = encryptedBalance w c
  /\ events (snd r) = Repaid c 0 :: events w.
Proof.
  intros Hr Hw _ Hdebt Hp.
  pose proof (reachable_wf w Hr) as Hwf.
  destruct (repay_effect w Hwf c h p Hw Hp) as (Hok & Hd & Hbal & Hev & _).
  apply proof_ok_spec in Hp as (_ & _ & _ & Ha).
  cbn zeta. rewrite (call_ok _ _ _ Hok).
  rewrite Hd, Hbal, Hev, Hdebt.
  destruct (decide (c = c)); [| contradiction].
  assert (Hburn : (if proof_clear p <=? 0 then proof_clear p else 0) = 0).
  { destruct (Z.leb_spec (proof_clear p) 0); [range | reflexivity]. }
  rewrite Hburn.
  split; [exact Hok |]. split; [| split; [| reflexivity]].
  - destruct (Z.leb_spec (proof_clear p) 0); range.
  - apply sub_zero, (wf_balance w Hwf).
Qed.

Lemma repay_without_position_witness :
  fst (call (CryptoShield.repay Demo.alice 7 (Demo.input 3)) Demo.fresh)
    = Ok tt
  /\ encryptedDebt
       (snd (call (CryptoShield.repay Demo.alice 7 (Demo.input 3))
               Demo.fresh)) Demo.alice = 0.
Proof.
  destruct (repay_without_position Demo.fresh Demo.alice 7 (Demo.input 3))
    as (Hok & Hdebt & _).
  - apply demo_fresh_reachable.
  - reflexivity.
  - reflexivity.
  - reflexivity.
  - reflexivity.
  - split; [exact Hok | exact Hdebt].
Defined.

(** * Further properties of the contracts *)

(** ** Sums over a mapping *)

Lemma total_empty : total ∅ = 0.
Proof. unfold total. apply map_fold_empty. Qed.

Lemma total_insert_fresh (m : gmap Z Z) (a v : Z) :
  m !! a = None -> total (<[a := v]> m) = v + total m.
Proof.
  intros Hnone. unfold total.
  apply (map_fold_insert_L (fun _ v acc => v + acc)); [| exact Hnone].
  intros; lia.
Qed.

Lemma total_delete (m : gmap Z Z) (a : Z) :
  total m = rd m a + total (delete a m).
Proof.
  unfold rd. destruct (m !! a) as [x |] eqn:Hlook; cbn.
  - unfold total.
    apply (map_fold_delete_L (fun _ v acc => v + acc)); [| exact Hlook].
    intros; lia.
  - rewrite (delete_id m a Hlook). lia.
Qed.

Lemma total_insert (m : gmap Z Z) (a v : Z) :
  total (<[a := v]> m) = total m - rd m a + v.
Proof.
  rewrite <- (insert_delete_eq m a v).
  rewrite total_insert_fresh by apply lookup_delete_eq.
  rewrite (total_delete m a). lia.
Qed.

Lemma total_nonneg (m : gmap Z Z) :
  (forall a, 0 <= rd m a) -> 0 <= total m.
Proof.
  induction m as [| i x m Hnone IH] using map_ind; intros Hall.
  - rewrite total_empty. lia.
  - rewrite (total_insert_fresh m i x Hnone).
    pose proof (Hall i) as Hi. rewrite rd_insert in Hi.
    destruct (decide (i = i)); [| contradiction].
    assert (0 <= total m); [| lia].
    apply IH. intros a. specialize (Hall a). rewrite rd_insert in Hall.
    destruct (decide (i = a)) as [<- |]; [| exact Hall].
    unfold rd. rewrite Hnone. cbn. lia.
Qed.

Lemma total_covers (m : gmap Z Z) (a : Z) :
  (forall b, 0 <= rd m b) -> rd m a <= total m.
Proof.
  intros Hall. rewrite (total_delete m a).
  assert (0 <= total (delete a m)); [| lia].
  apply total_nonneg. intros b. unfold rd. rewrite lookup_delete.
  destruct (decide (a = b)); cbn; [lia | apply Hall].
Qed.

(** ** Solvency *)

Lemma genesis_solvent (deployer initialMinter vault token : Z) :
  totalStaked (genesis deployer initialMinter vault token)
    <= ethBalance (genesis deployer initialMinter vault token).
Proof. unfold totalStaked. cbn. rewrite total_empty. lia. Qed.

Lemma transact_solvent (tx : Tx) (w : World) :
  wf w -> well_typed tx ->
  totalStaked w <= ethBalance w ->
  totalStaked (transact tx w) <= ethBalance (transact tx w).
Proof.
  intros Hwf Hty Hs. pose proof Hwf as [Hp Hm Hd Hb He].
  unfold totalStaked in *.
  open_world w. destruct tx; unfold_ops; unfold_views; cbn in *.
  - pose proof (Hp sender). pose proof (Hm sender).
    assert (is_uint64 (rd stakedEnc sender)) by congruence.
    run; rewrite ?total_insert; lia.
  - pose proof (Hp sender). pose proof (Hm sender).
    assert (is_uint64 (rd stakedEnc sender)) by congruence.
    run; rewrite ?total_insert; lia.
  - unfold FHE.select, FHE.and, FHE.le. run; assumption.
  - run; assumption.
  - run; assumption.
  - run; assumption.
  - run; assumption.
  - run. range.
Qed.

Lemma reachable_solvent (w : World) :
  reachable w -> totalStaked w <= ethBalance w.
Proof.
  induction 1 as [deployer initialMinter vault token _ | w tx Hr IH Hty].
  - apply genesis_solvent.
  - apply transact_solvent; [now apply reachable_wf | exact Hty | exact IH].
Qed.

Lemma stake_is_funded (w : World) (c : Z) :
  reachable w -> plainStake w c <= ethBalance w.
Proof.
  intros Hr. pose proof (reachable_solvent w Hr) as Hs.
  assert (plainStake w c <= totalStaked w); [| lia].
  apply total_covers. intros b.
  apply (wf_plain w (reachable_wf w Hr) b).
Qed.

(** X1: the vault is solvent: in every reachable state its holdings are at
    least the sum of all plain stakes, so that each account's plain stake is
    covered by the holdings.  The holdings can be more than the stakes,
    since ether can reach the vault without a call to [stake]. *)
Theorem vault_covers_all_stakes (w : World) (c : Z) :
  reachable w ->
  totalStaked w <= ethBalance w /\ plainStake w c <= ethBalance w.
Proof.
  intros Hr. split; [now apply reachable_solvent | now apply stake_is_funded].
Qed.

Lemma vault_covers_all_stakes_witness :
  totalStaked Demo.indebted <= ethBalance Demo.indebted
  /\ plainStake Demo.indebted Demo.alice <= ethBalance Demo.indebted.
Proof.
  apply (vault_covers_all_stakes Demo.indebted Demo.alice).
  apply demo_indebted_reachable.
Defined.

(** Forced ether makes the inequality strict: five units sent to the vault
    after a stake of ten leave fifteen held against ten staked. *)
Lemma holdings_can_exceed_stakes :
  reachable (transact (TxForceEther 5) Demo.staked)
  /\ totalStaked (transact (TxForceEther 5) Demo.staked) = 10
  /\ ethBalance (transact (TxForceEther 5) Demo.staked) = 15.
Proof.
  split; [apply reach_step; [apply demo_staked_reachable | cbn; range] |].
  split; vm_compute; reflexivity.
Qed.

(** ** The outcomes of [stake] and [withdraw] *)

(** X2: [stake] goes through exactly when the value is positive and the new
    plain stake fits in 64 bits.  It then raises the caller's plain stake,
    encrypted stake (as [getEncryptedStake] returns it) and the vault's
    holdings by the value and emits [StakeDeposited]; the debt is untouched.
    Otherwise it reverts and nothing changes: [ZeroStakeAmount] for a zero
    value, the arithmetic panic when the sum leaves [uint256], and
    [StakeTooLarge] in between. *)
Theorem stake_outcome (w : World) (c value : Z) :
  reachable w -> is_uint256 value ->
  let r := call (CryptoShield.stake c value) w in
  let s := plainStake w c in
  if (0 <? value) && (s + value <=? uint64_max) then
    fst r = Ok tt
    /\ plainStake (snd r) c = s + value
    /\ CryptoShield.getEncryptedStake c (snd r) = (Ok (s + value), snd r)
    /\ CryptoShield.getEncryptedDebt c (snd r)
         = (Ok (encryptedDebt w c), snd r)
    /\ ethBalance (snd r) = ethBalance w + value
    /\ events (snd r) = StakeDeposited c value :: events w
  else
    r = (Revert (if value =? 0 then ZeroStakeAmount
                 else if s + value >? uint256_max then ArithmeticPanic
                 else StakeTooLarge), w).
Proof.
  intros Hr Hty.
  pose proof (reachable_wf w Hr) as Hwf.
  pose proof (wf_plain w Hwf c) as Hp.
  pose proof (wf_mirror w Hwf c) as Hm.
  assert (He : is_uint64 (encryptedStake w c)) by (rewrite Hm; exact Hp).
  open_world w. unfold CryptoShield.getEncryptedStake,
    CryptoShield.getEncryptedDebt. unfold_ops. unfold_views. cbn in *.
  run; rewrite ?rd_insert; repeat case_cond; try range; try congruence;
    repeat split; congruence.
Qed.

Lemma stake_outcome_witness :
  call (CryptoShield.stake Demo.alice (2 ^ 64 - 10)) Demo.staked
    = (Revert StakeTooLarge, Demo.staked).
Proof.
  apply (stake_outcome Demo.staked Demo.alice (2 ^ 64 - 10)).
  - apply demo_staked_reachable.
  - range.
Defined.

(** X3: [withdraw] reverts with [ZeroWithdrawAmount] for a zero amount and
    with [InsufficientStake] for an amount above the caller's plain stake,
    in this order and without changing anything.  Any other amount is paid
    out whenever the receiver accepts it (the vault always has the funds):
    plain stake, encrypted stake and holdings drop by exactly the amount,
    the debt is not looked at, and [StakeWithdrawn] is emitted.  When the
    receiver refuses, the call reverts with [EthTransferFailed]. *)
Theorem withdraw_outcome (w : World) (c amount : Z) (accepts : bool) :
  reachable w -> is_uint256 amount ->
  let r := call (CryptoShield.withdraw c amount accepts) w in
  let s := plainStake w c in
  if amount =? 0 then r = (Revert ZeroWithdrawAmount, w)
  else if amount >? s then r = (Revert InsufficientStake, w)
  else if accepts then
    fst r = Ok tt
    /\ plainStake (snd r) c = s - amount
    /\ CryptoShield.getEncryptedStake c (snd r) = (Ok (s - amount), snd r)
    /\ CryptoShield.getEncryptedDebt c (snd r)
         = (Ok (encryptedDebt w c), snd r)
    /\ ethBalance (snd r) = ethBalance w - amount
    /\ events (snd r) = StakeWithdrawn c amount :: events w
  else r = (Revert EthTransferFailed, w).
Proof.
  intros Hr Hty.
  pose proof (reachable_wf w Hr) as Hwf.
  pose proof (wf_plain w Hwf c) as Hp.
  pose proof (wf_mirror w Hwf c) as Hm.
  pose proof (stake_is_funded w c Hr) as Hfund.
  assert (He : is_uint64 (encryptedStake w c)) by (rewrite Hm; exact Hp).
  open_world w. unfold CryptoShield.getEncryptedStake,
    CryptoShield.getEncryptedDebt. unfold_ops. unfold_views. cbn in *.
  destruct accepts;
    run; rewrite ?rd_insert; repeat case_cond; try range; try congruence;
    repeat split; congruence.
Qed.

Lemma withdraw_outcome_witness :
  call (CryptoShield.withdraw Demo.alice 11 true) Demo.indebted
    = (Revert InsufficientStake, Demo.indebted).
Proof.
  apply (withdraw_outcome Demo.indebted Demo.alice 11 true).
  - apply demo_indebted_reachable.
  - range.
Defined.

(** ** What a transaction leaves alone *)

(* Run a body without looking into the safe arithmetic: its two results
   are taken as they come. *)
Ltac run_blind :=
  unfold FHE.select, FHE.and, FHE.le;
  repeat first
    [ progress cbn
    | match goal with
      | |- context [FHESafeMath.tryIncrease ?x ?y] =>
          destruct (FHESafeMath.tryIncrease x y) as [? ?]
      | |- context [FHESafeMath.tryDecrease ?x ?y] =>
          destruct (FHESafeMath.tryDecrease x y) as [? ?]
      end
    | case_cond ].

(** X4: a transaction touches the records of one account only: whatever it
    is and however it ends, the plain stake, encrypted stake, debt and
    ledger balance of every other account are what they were. *)
Theorem other_accounts_untouched (w : World) (tx : Tx) (a : Z) :
  tx_account tx <> Some a ->
  plainStake (transact tx w) a = plainStake w a
  /\ encryptedStake (transact tx w) a = encryptedStake w a
  /\ encryptedDebt (transact tx w) a = encryptedDebt w a
  /\ encryptedBalance (transact tx w) a = encryptedBalance w a.
Proof.
  intros Hother.
  open_world w. destruct tx; unfold_ops; unfold_views; cbn in *.
  all: run_blind; rewrite ?rd_insert; repeat case_cond;
    repeat split; congruence.
Qed.

Lemma other_accounts_untouched_witness :
  encryptedDebt
    (transact (TxBorrow Demo.alice 7 (Demo.input 10)) Demo.staked)
    Demo.deployer = encryptedDebt Demo.staked Demo.deployer.
Proof.
  apply (other_accounts_untouched Demo.staked
           (TxBorrow Demo.alice 7 (Demo.input 10)) Demo.deployer).
  discriminate.
Defined.

(** X5: the vault's entry points keep their books apart.  [stake] and
    [withdraw] change no debt and no ledger balance; [borrow] and [repay]
    change no stake, plain or encrypted, and not the vault's holdings; the
    ledger's own entry points change nothing the vault stores; and ether
    forced into the vault changes no storage of either contract. *)
Theorem books_kept_apart (w : World) (tx : Tx) (a : Z) :
  match tx with
  | TxStake _ _ | TxWithdraw _ _ _ =>
      encryptedDebt (transact tx w) a = encryptedDebt w a
      /\ encryptedBalance (transact tx w) a = encryptedBalance w a
  | TxBorrow _ _ _ | TxRepay _ _ _ =>
      plainStake (transact tx w) a = plainStake w a
      /\ encryptedStake (transact tx w) a = encryptedStake w a
      /\ ethBalance (transact tx w) = ethBalance w
  | TxMint _ _ _ | TxBurnFrom _ _ _ | TxUpdateMinter _ _ =>
      shield (transact tx w) = shield w
      /\ ethBalance (transact tx w) = ethBalance w
  | TxForceEther _ =>
      shield (transact tx w) = shield w
      /\ ledger (transact tx w) = ledger w
  end.
Proof.
  open_world w. destruct tx; unfold_ops; unfold_views; cbn in *.
  all: run_blind; auto.
Qed.

(** ** Administration of the ledger *)

(** X6: [updateMinter] checks the caller before the argument: anyone but the
    owner gets [UnauthorizedOwner], also with the zero address as argument;
    the owner gets [InvalidMinter] for the zero address; otherwise the call
    sets the minter to the argument and changes nothing else. *)
Theorem updateMinter_outcome (w : World) (c n : Z) :
  let r := call (CZama.updateMinter c n) w in
  let o := CZamaStorage.owner (ledger w) in
  if negb (c =? o) then r = (Revert (UnauthorizedOwner c), w)
  else if n =? 0 then r = (Revert (InvalidMinter n), w)
  else
    fst r = Ok tt
    /\ CZamaStorage.minter (ledger (snd r)) = n
    /\ CZamaStorage.owner (ledger (snd r)) = o
    /\ CZamaStorage._balances (ledger (snd r))
         = CZamaStorage._balances (ledger w)
    /\ shield (snd r) = shield w
    /\ ethBalance (snd r) = ethBalance w.
Proof.
  open_world w. unfold_ops. cbn.
  destruct (Z.eqb_spec c owner); cbn; [| reflexivity].
  destruct (Z.eqb_spec n 0); cbn; [reflexivity | auto 10].
Qed.

(** X7: rotating the minter takes the role away from the old one: after the
    owner has set a new minter [n], [mint] and [burnFrom] sent by any other
    address, the previous minter included, revert with
    [UnauthorizedMinter], and sent by [n] they go through. *)
Theorem rotation_revokes (w : World) (n c acct amount : Z) :
  n <> 0 ->
  let w' := transact (TxUpdateMinter (CZamaStorage.owner (ledger w)) n) w in
  (c <> n ->
   call (CZama.mint c acct amount) w' = (Revert (UnauthorizedMinter c), w')
   /\ call (CZama.burnFrom c acct amount) w'
        = (Revert (UnauthorizedMinter c), w'))
  /\ (exists b, fst (call (CZama.mint n acct amount) w') = Ok b)
  /\ (exists b, fst (call (CZama.burnFrom n acct amount) w') = Ok b).
Proof.
  intros Hn.
  open_world w. unfold_ops. cbn.
  rewrite Z.eqb_refl. cbn.
  destruct (Z.eqb_spec n 0); [contradiction |]. cbn.
  split; [intros Hc |].
  - destruct (Z.eqb_spec c n); [contradiction |]. cbn. auto.
  - rewrite Z.eqb_refl. cbn. eauto.
Qed.

Lemma rotation_revokes_witness :
  exists b,
    fst (call (CZama.mint 77 Demo.alice 5)
           (transact (TxUpdateMinter Demo.deployer 77) Demo.staked)) = Ok b.
Proof.
  apply (rotation_revokes Demo.staked 77 Demo.vault Demo.alice 5).
  discriminate.
Defined.

Lemma transact_setup (tx : Tx) (w : World) :
  shieldAddr (transact tx w) = shieldAddr w
  /\ ShieldStorage.czama (shield (transact tx w))
       = ShieldStorage.czama (shield w)
  /\ CZamaStorage.owner (ledger (transact tx w))
       = CZamaStorage.owner (ledger w)
  /\ (CZamaStorage.minter (ledger (transact tx w))
        <> CZamaStorage.minter (ledger w) ->
      exists n, tx = TxUpdateMinter (CZamaStorage.owner (ledger w)) n
                /\ n <> 0
                /\ CZamaStorage.minter (ledger (transact tx w)) = n).
Proof.
  open_world w. destruct tx; unfold_ops; unfold_views; cbn in *.
  all: run_blind; repeat split; try reflexivity; try contradiction.
  intros _. subst. eauto.
Qed.

(** X8: the deployment is fixed for good: no transaction changes the
    vault's address, the ledger the vault refers to, or the ledger's owner;
    and the only transaction that changes the minter is an [updateMinter]
    sent by the owner, with a new minter other than the zero address. *)
Theorem setup_is_fixed (w : World) (tx : Tx) :
  shieldAddr (transact tx w) = shieldAddr w
  /\ ShieldStorage.czama (shield (transact tx w))
       = ShieldStorage.czama (shield w)
  /\ CZamaStorage.owner (ledger (transact tx w))
       = CZamaStorage.owner (ledger w)
  /\ (CZamaStorage.minter (ledger (transact tx w))
        <> CZamaStorage.minter (ledger w) ->
      exists n, tx = TxUpdateMinter (CZamaStorage.owner (ledger w)) n
                /\ n <> 0
                /\ CZamaStorage.minter (ledger (transact tx w)) = n).
Proof. apply transact_setup. Qed.

Lemma reachable_minter (w : World) :
  reachable w -> CZamaStorage.minter (ledger w) <> 0.
Proof.
  induction 1 as [deployer initialMinter vault token Hm | w tx Hr IH Hty].
  - exact Hm.
  - destruct (transact_setup tx w) as (_ & _ & _ & Hchange).
    destruct (decide (CZamaStorage.minter (ledger (transact tx w))
                      = CZamaStorage.minter (ledger w))) as [-> | Hne];
      [exact IH |].
    destruct (Hchange Hne) as (n & _ & Hn & ->). exact Hn.
Qed.

(** X9: the ledger always has a minter: in every reachable state the minter
    is not the zero address. *)
Theorem minter_never_zero (w : World) :
  reachable w -> CZamaStorage.minter (ledger w) <> 0.
Proof. apply reachable_minter. Qed.

Lemma minter_never_zero_witness :
  CZamaStorage.minter (ledger Demo.indebted) <> 0.
Proof.
  apply (minter_never_zero Demo.indebted).
  apply demo_indebted_reachable.
Defined.

(** X10: the fixture of the test suite yields a wired deployment: when the
    deployer and the vault are not the zero address, the state after
    [deployFixture] is reachable, its minter is the vault, and its owner
    is the deployer; with a vault at the zero address the hand-over reverts
    and the deployer stays the minter. *)
Theorem deployFixture_wired (deployer vault token : Z) :
  deployer <> 0 ->
  reachable (deployFixture deployer vault token)
  /\ CZamaStorage.owner (ledger (deployFixture deployer vault token))
       = deployer
  /\ CZamaStorage.minter (ledger (deployFixture deployer vault token))
       = (if vault =? 0 then deployer else vault)
  /\ (vault <> 0 -> wired (deployFixture deployer vault token)).
Proof.
  intros Hd. split.
  { apply reach_step; [now apply reach_genesis | exact I]. }
  unfold deployFixture, genesis, wired. unfold_ops. cbn.
  rewrite Z.eqb_refl. cbn.
  destruct (Z.eqb_spec vault 0); cbn; auto. intuition congruence.
Qed.

Lemma deployFixture_wired_witness :
  wired (deployFixture Demo.deployer Demo.vault Demo.token).
Proof.
  apply (deployFixture_wired Demo.deployer Demo.vault Demo.token);
    discriminate.
Defined.

(** ** One transaction after another *)

Lemma sub_add (x y : Z) : is_uint64 x -> FHE.sub (FHE.add x y) y = x.
Proof.
  intros H. unfold FHE.sub, FHE.add.
  rewrite Zminus_mod_idemp_l. replace (x + y - y) with x by lia.
  now apply mod_uint64.
Qed.

Lemma add_zero (x : Z) : is_uint64 x -> FHE.add x 0 = x.
Proof. intros H. unfold FHE.add. rewrite Z.add_0_r. now apply mod_uint64. Qed.

Lemma wired_same_setup (w w' : World) :
  same_setup w w' -> wired w -> wired w'.
Proof. unfold wired. intros (-> & _ & _ & ->). auto. Qed.

Section Steps.

Variable w : World.
Hypothesis Hwf : wf w.
Hypothesis Hwired : wired w.

Lemma step_stake (c v : Z) :
  0 < v -> plainStake w c + v <= uint64_max ->
  let w' := transact (TxStake c v) w in
  fst (call (execute (TxStake c v)) w) = Ok tt
  /\ wf w' /\ wired w' /\ shieldAddr w' = shieldAddr w
  /\ plainStake w' c = plainStake w c + v
  /\ encryptedStake w' c = plainStake w c + v
  /\ encryptedDebt w' c = encryptedDebt w c
  /\ encryptedBalance w' c = encryptedBalance w c
  /\ ethBalance w' = ethBalance w + v.
Proof.
  intros Hv Hfit.
  destruct (stake_effect w Hwf c v Hv Hfit)
    as (Hok & P & S & D & B & E & U).
  assert (Hty : well_typed (TxStake c v)).
  { cbn. pose proof (wf_plain w Hwf c). range. }
  cbn zeta. rewrite call_fst. rewrite (transact_ok (TxStake c v) w Hok).
  specialize (P c). specialize (S c).
  destruct (decide (c = c)); [| contradiction].
  rewrite (wf_mirror w Hwf c) in S.
  split_and!; auto.
  - exact (ok_wf (TxStake c v) w Hwf Hty Hok).
  - exact (wired_same_setup _ _ U Hwired).
  - apply U.
Qed.

Lemma step_withdraw (c amount : Z) :
  0 < amount -> amount <= plainStake w c -> amount <= ethBalance w ->
  let w' := transact (TxWithdraw c amount true) w in
  fst (call (execute (TxWithdraw c amount true)) w) = Ok tt
  /\ wf w' /\ wired w' /\ shieldAddr w' = shieldAddr w
  /\ plainStake w' c = plainStake w c - amount
  /\ encryptedStake w' c = plainStake w c - amount
  /\ encryptedDebt w' c = encryptedDebt w c
  /\ encryptedBalance w' c = encryptedBalance w c
  /\ ethBalance w' = ethBalance w - amount.
Proof.
  intros Hv Hle Hfund.
  destruct (withdraw_effect w Hwf c amount true Hv Hle eq_refl Hfund)
    as (Hok & P & S & D & B & E & U).
  assert (Hty : well_typed (TxWithdraw c amount true)).
  { cbn. pose proof (wf_plain w Hwf c). range. }
  cbn zeta. rewrite call_fst.
  rewrite (transact_ok (TxWithdraw c amount true) w Hok).
  specialize (P c). specialize (S c).
  destruct (decide (c = c)); [| contradiction].
  rewrite (wf_mirror w Hwf c) in S.
  split_and!; auto.
  - exact (ok_wf (TxWithdraw c amount true) w Hwf Hty Hok).
  - exact (wired_same_setup _ _ U Hwired).
  - apply U.
Qed.

Lemma step_borrow (c h : Z) (p : inputProof) :
  plainStake w c <> 0 -> proof_ok (shieldAddr w) c h p = true ->
  let w' := transact (TxBorrow c h p) w in
  let a := proof_clear p in
  let d := encryptedDebt w c in
  let ok := canBorrow d a (encryptedStake w c) in
  fst (call (execute (TxBorrow c h p)) w) = Ok tt
  /\ wf w' /\ wired w' /\ shieldAddr w' = shieldAddr w
  /\ plainStake w' c = plainStake w c
  /\ encryptedStake w' c = encryptedStake w c
  /\ encryptedDebt w' c = (if ok then d + a else d)
  /\ encryptedBalance w' c
       = FHE.add (encryptedBalance w c) (if ok then a else 0)
  /\ ethBalance w' = ethBalance w.
Proof.
  intros Hs Hp.
  destruct (borrow_effect w Hwf c h p Hwired Hs Hp)
    as (Hok & D & B & _ & P & S & E & U).
  cbn zeta. rewrite call_fst. rewrite (transact_ok (TxBorrow c h p) w Hok).
  specialize (D c). specialize (B c).
  destruct (decide (c = c)); [| contradiction].
  split_and!; auto.
  - exact (ok_wf (TxBorrow c h p) w Hwf I Hok).
  - exact (wired_same_setup _ _ U Hwired).
  - apply U.
Qed.

Lemma step_repay (c h : Z) (p : inputProof) :
  proof_ok (shieldAddr w) c h p = true ->
  let w' := transact (TxRepay c h p) w in
  let a := proof_clear p in
  let d := encryptedDebt w c in
  fst (call (execute (TxRepay c h p)) w) = Ok tt
  /\ wf w' /\ wired w' /\ shieldAddr w' = shieldAddr w
  /\ plainStake w' c = plainStake w c
  /\ encryptedStake w' c = encryptedStake w c
  /\ encryptedDebt w' c = (if a <=? d then d - a else d)
  /\ encryptedBalance w' c
       = FHE.sub (encryptedBalance w c) (if a <=? d then a else 0)
  /\ ethBalance w' = ethBalance w.
Proof.
  intros Hp.
  destruct (repay_effect w Hwf c h p Hwired Hp)
    as (Hok & D & B & _ & P & S & E & U).
  cbn zeta. rewrite call_fst. rewrite (transact_ok (TxRepay c h p) w Hok).
  specialize (D c). specialize (B c).
  destruct (decide (c = c)); [| contradiction].
  split_and!; auto.
  - exact (ok_wf (TxRepay c h p) w Hwf I Hok).
  - exact (wired_same_setup _ _ U Hwired).
  - apply U.
Qed.

End Steps.

Lemma borrow_requires_stake_run (w : World) (c h : Z) (p : inputProof) :
  plainStake w c = 0 ->
  CryptoShield.borrow c h p w = (Revert NoStake, w)
  /\ call (CryptoShield.borrow c h p) w = (Revert NoStake, w).
Proof.
  intros Hzero.
  assert (Hrun : CryptoShield.borrow c h p w = (Revert NoStake, w)).
  { unfold CryptoShield.borrow, mbind, M_bind, bind, gets, revert.
    rewrite Hzero. reflexivity. }
  split; [exact Hrun |]. unfold call. rewrite Hrun. reflexivity.
Qed.

Lemma canBorrow_covered (w : World) (c a : Z) :
  wf w ->
  canBorrow (encryptedDebt w c) a (encryptedStake w c)
    = (encryptedDebt w c + a <=? encryptedStake w c).
Proof.
  intros Hwf. unfold canBorrow.
  pose proof (wf_plain w Hwf c) as Hp. rewrite <- (wf_mirror w Hwf c) in Hp.
  destruct (Z.leb_spec (encryptedDebt w c + a) (encryptedStake w c));
    [| apply andb_false_r].
  destruct (Z.leb_spec (encryptedDebt w c + a) uint64_max);
    [reflexivity | range].
Qed.

(** X11: a borrow followed by a repayment of the same amount.  When the
    borrow is covered ([debt + a <= stake]) the pair is a round trip: debt
    and ledger balance end where they started.  When it is not, the borrow
    changes nothing, and the repayment that follows is a real one: it takes
    [a] off the debt and off the balance if the debt is at least [a]. *)
Theorem borrow_then_repay (w : World) (c h1 h2 : Z) (p1 p2 : inputProof) :
  reachable w -> wired w -> 0 < plainStake w c ->
  proof_ok (shieldAddr w) c h1 p1 = true ->
  proof_ok (shieldAddr w) c h2 p2 = true ->
  proof_clear p2 = proof_clear p1 ->
  let a := proof_clear p1 in
  let d := encryptedDebt w c in
  let w1 := transact (TxBorrow c h1 p1) w in
  let w2 := transact (TxRepay c h2 p2) w1 in
  fst (call (execute (TxBorrow c h1 p1)) w) = Ok tt
  /\ fst (call (execute (TxRepay c h2 p2)) w1) = Ok tt
  /\ encryptedDebt w2 c =
       (if d + a <=? encryptedStake w c then d
        else if a <=? d then d - a else d)
  /\ encryptedBalance w2 c =
       (if d + a <=? encryptedStake w c then encryptedBalance w c
        else FHE.sub (encryptedBalance w c) (if a <=? d then a else 0)).
Proof.
  intros Hr Hwired Hs Hp1 Hp2 Heq.
  pose proof (reachable_wf w Hr) as Hwf.
  pose proof (wf_debt w Hwf c) as Hd.
  pose proof (wf_balance w Hwf c) as Hb.
  pose proof (proj1 (proof_ok_spec _ _ _ _) Hp1) as (_ & _ & _ & Ha).
  assert (Hnz : plainStake w c <> 0) by lia.
  destruct (step_borrow w Hwf Hwired c h1 p1 Hnz Hp1)
    as (Ok1 & Hwf1 & Hwired1 & A1 & _ & _ & D1 & B1 & _).
  rewrite <- A1 in Hp2.
  destruct (step_repay _ Hwf1 Hwired1 c h2 p2 Hp2)
    as (Ok2 & _ & _ & _ & _ & _ & D2 & B2 & _).
  cbn zeta. split; [exact Ok1 |]. split; [exact Ok2 |].
  rewrite D2, B2, D1, B1, Heq, (canBorrow_covered w c _ Hwf).
  destruct (Z.leb_spec (encryptedDebt w c + proof_clear p1)
              (encryptedStake w c)).
  - destruct (Z.leb_spec (proof_clear p1)
                (encryptedDebt w c + proof_clear p1)); [| range].
    split; [lia | now apply sub_add].
  - rewrite (add_zero _ Hb). split; reflexivity.
Qed.

Lemma borrow_then_repay_witness :
  encryptedDebt
    (transact (TxRepay Demo.alice 7 (Demo.input 3))
       (transact (TxBorrow Demo.alice 7 (Demo.input 3)) Demo.indebted))
    Demo.alice = 7.
Proof.
  apply (borrow_then_repay Demo.indebted Demo.alice 7 7 (Demo.input 3)
           (Demo.input 3)).
  - apply demo_indebted_reachable.
  - reflexivity.
  - reflexivity.
  - reflexivity.
  - reflexivity.
  - reflexivity.
Defined.

(** X12: the ledger follows the debt: a [borrow] mints exactly the amount
    by which it raises the caller's debt, and a [repay] burns exactly the
    amount by which it lowers it, with or without a stake. *)
Theorem ledger_follows_debt (w : World) (c h : Z) (p : inputProof) :
  reachable w -> wired w ->
  proof_ok (shieldAddr w) c h p = true ->
  let wb := transact (TxBorrow c h p) w in
  let wr := transact (TxRepay c h p) w in
  encryptedDebt w c <= encryptedDebt wb c
  /\ encryptedBalance wb c
       = FHE.add (encryptedBalance w c)
           (encryptedDebt wb c - encryptedDebt w c)
  /\ encryptedDebt wr c <= encryptedDebt w c
  /\ encryptedBalance wr c
       = FHE.sub (encryptedBalance w c)
           (encryptedDebt w c - encryptedDebt wr c).
Proof.
  intros Hr Hwired Hp.
  pose proof (reachable_wf w Hr) as Hwf.
  pose proof (wf_balance w Hwf c) as Hb.
  pose proof (proj1 (proof_ok_spec _ _ _ _) Hp) as (_ & _ & _ & Ha).
  destruct (step_repay w Hwf Hwired c h p Hp)
    as (_ & _ & _ & _ & _ & _ & D2 & B2 & _).
  cbn zeta. rewrite D2, B2.
  assert (Hrepay :
    (if proof_clear p <=? encryptedDebt w c
     then encryptedDebt w c - proof_clear p else encryptedDebt w c)
      <= encryptedDebt w c
    /\ FHE.sub (encryptedBalance w c)
         (if proof_clear p <=? encryptedDebt w c then proof_clear p else 0)
       = FHE.sub (encryptedBalance w c)
           (encryptedDebt w c
            - (if proof_clear p <=? encryptedDebt w c
               then encryptedDebt w c - proof_clear p
               else encryptedDebt w c))).
  { destruct (Z.leb_spec (proof_clear p) (encryptedDebt w c));
      split; try range; f_equal; lia. }
  destruct (Z.eq_dec (plainStake w c) 0) as [Hzero | Hnz].
  - (* no stake: the borrow reverts and nothing has changed *)
    assert (Hsame : transact (TxBorrow c h p) w = w).
    { unfold transact. cbn [execute].
      destruct (borrow_requires_stake_run w c h p Hzero) as [_ ->].
      reflexivity. }
    rewrite Hsame, Z.sub_diag, (add_zero _ Hb).
    split_and!; try apply Hrepay; lia.
  - destruct (step_borrow w Hwf Hwired c h p Hnz Hp)
      as (_ & _ & _ & _ & _ & _ & D1 & B1 & _).
    rewrite D1, B1.
    destruct (canBorrow _ _ _); split_and!; try apply Hrepay;
      try range; f_equal; lia.
Qed.

(** The reachable case of an account with a debt and no stake left: after
    stake 10, borrow 10 and withdraw 10, a repayment of 10 burns 10. *)
Lemma ledger_follows_debt_witness :
  encryptedBalance
    (transact (TxRepay Demo.alice 7 (Demo.input 10))
       (transact (TxWithdraw Demo.alice 10 true) Demo.indebted)) Demo.alice
  = FHE.sub
      (encryptedBalance
         (transact (TxWithdraw Demo.alice 10 true) Demo.indebted) Demo.alice)
      (encryptedDebt
         (transact (TxWithdraw Demo.alice 10 true) Demo.indebted) Demo.alice
       - encryptedDebt
           (transact (TxRepay Demo.alice 7 (Demo.input 10))
              (transact (TxWithdraw Demo.alice 10 true) Demo.indebted))
           Demo.alice).
Proof.
  apply (ledger_follows_debt
           (transact (TxWithdraw Demo.alice 10 true) Demo.indebted)
           Demo.alice 7 (Demo.input 10)).
  - apply reach_step; [apply demo_indebted_reachable | cbn; range].
  - reflexivity.
  - reflexivity.
Defined.

(** X13: a stake followed by a withdrawal: from any reachable state, after
    staking [v] and withdrawing [a] (at most the new stake, paid to a
    receiver that accepts), plain and encrypted stake are both the old
    stake plus [v] minus [a] and the holdings have moved alike; withdrawing
    what was staked puts all three back. *)
Theorem stake_then_withdraw (w : World) (c v a : Z) :
  reachable w ->
  0 < v -> plainStake w c + v <= uint64_max ->
  0 < a <= plainStake w c + v ->
  let w1 := transact (TxStake c v) w in
  let w2 := transact (TxWithdraw c a true) w1 in
  fst (call (execute (TxStake c v)) w) = Ok tt
  /\ fst (call (execute (TxWithdraw c a true)) w1) = Ok tt
  /\ plainStake w2 c = plainStake w c + v - a
  /\ encryptedStake w2 c = plainStake w c + v - a
  /\ ethBalance w2 = ethBalance w + v - a
  /\ (a = v ->
      plainStake w2 c = plainStake w c
      /\ encryptedStake w2 c = encryptedStake w c
      /\ ethBalance w2 = ethBalance w).
Proof.
  intros Hr Hv Hfit Ha.
  pose proof (reachable_wf w Hr) as Hwf.
  pose proof (stake_is_funded w c Hr) as Hfund.
  pose proof (wf_plain w Hwf c) as Hp.
  destruct (stake_effect w Hwf c v Hv Hfit)
    as (Hok & P & S & _ & _ & E & _).
  assert (Hty : well_typed (TxStake c v)) by (cbn; range).
  pose proof (ok_wf (TxStake c v) w Hwf Hty Hok) as Hwf1.
  specialize (P c). specialize (S c).
  destruct (decide (c = c)); [| contradiction].
  cbn zeta. rewrite call_fst. split; [exact Hok |].
  rewrite (transact_ok (TxStake c v) w Hok).
  change (execute (TxStake c v) w) with (CryptoShield.stake c v w).
  set (w1 := snd (CryptoShield.stake c v w)) in *.
  assert (Hle : a <= plainStake w1 c) by (rewrite P; lia).
  assert (Hfund1 : a <= ethBalance w1) by (rewrite E; lia).
  destruct (withdraw_effect w1 Hwf1 c a true (proj1 Ha) Hle eq_refl Hfund1)
    as (Hok2 & P2 & S2 & _ & _ & E2 & _).
  specialize (P2 c). specialize (S2 c).
  destruct (decide (c = c)); [| contradiction].
  rewrite call_fst. split; [exact Hok2 |].
  rewrite (transact_ok (TxWithdraw c a true) w1 Hok2).
  change (execute (TxWithdraw c a true) w1)
    with (CryptoShield.withdraw c a true w1).
  rewrite P2, S2, E2, P, S, E, (wf_mirror w Hwf c).
  split_and!; try reflexivity. intros ->. split_and!; lia.
Qed.

Lemma stake_then_withdraw_witness :
  plainStake
    (transact (TxWithdraw Demo.alice 5 true)
       (transact (TxStake Demo.alice 5) Demo.indebted)) Demo.alice
  = plainStake Demo.indebted Demo.alice + 5 - 5.
Proof.
  destruct (stake_then_withdraw Demo.indebted Demo.alice 5 5)
    as (_ & _ & Hplain & _).
  - apply demo_indebted_reachable.
  - lia.
  - vm_compute; discriminate.
  - split; [reflexivity | vm_compute; discriminate].
  - exact Hplain.
Defined.

(** ** The scenarios of the test suite, for all amounts *)

Lemma fixture_fresh (deployer vault token : Z) :
  deployer <> 0 -> vault <> 0 ->
  let w := deployFixture deployer vault token in
  reachable w /\ wired w /\ shieldAddr w = vault
  /\ ethBalance w = 0
  /\ forall a, plainStake w a = 0 /\ encryptedDebt w a = 0
               /\ encryptedBalance w a = 0.
Proof.
  intros Hd Hv. cbn zeta. split.
  { apply reach_step; [now apply reach_genesis | exact I]. }
  unfold deployFixture, genesis, wired. unfold_ops. unfold_views. cbn.
  rewrite Z.eqb_refl. cbn.
  destruct (Z.eqb_spec vault 0); [contradiction |]. cbn.
  split_and!; try reflexivity. intros a. rewrite !rd_empty. auto.
Qed.

(** X14: the test "borrows and repays cZama with encrypted debt tracking",
    for every stake [s] and every amount [0 < b <= s]: on the fixture,
    after staking [s] and borrowing [b] the debt and the ledger balance of
    the account are both [b]; after repaying [b] both are [0]. *)
Theorem fixture_borrow_repay (deployer vault token alice s b h1 h2 : Z)
    (p1 p2 : inputProof) :
  deployer <> 0 -> vault <> 0 ->
  0 < s <= uint64_max -> 0 < b <= s ->
  proof_ok vault alice h1 p1 = true -> proof_clear p1 = b ->
  proof_ok vault alice h2 p2 = true -> proof_clear p2 = b ->
  let w0 := deployFixture deployer vault token in
  let w1 := transact (TxStake alice s) w0 in
  let w2 := transact (TxBorrow alice h1 p1) w1 in
  let w3 := transact (TxRepay alice h2 p2) w2 in
  fst (call (execute (TxStake alice s)) w0) = Ok tt
  /\ fst (call (execute (TxBorrow alice h1 p1)) w1) = Ok tt
  /\ fst (call (execute (TxRepay alice h2 p2)) w2) = Ok tt
  /\ fst (CryptoShield.getEncryptedDebt alice w2) = Ok b
  /\ encryptedBalance w2 alice = b
  /\ fst (CryptoShield.getEncryptedDebt alice w3) = Ok 0
  /\ encryptedBalance w3 alice = 0.
Proof.
  intros Hd Hv Hs Hb Hp1 Hc1 Hp2 Hc2.
  destruct (fixture_fresh deployer vault token Hd Hv)
    as (Hr & Hwired & Haddr & Heth & Hzero).
  destruct (Hzero alice) as (P0 & D0 & B0).
  pose proof (reachable_wf _ Hr) as Hwf.
  assert (Hfit : plainStake (deployFixture deployer vault token) alice + s
                 <= uint64_max) by (rewrite P0; lia).
  destruct (step_stake _ Hwf Hwired alice s (proj1 Hs) Hfit)
    as (Ok1 & Hwf1 & Hwired1 & A1 & P1 & S1 & D1 & B1 & _).
  set (w1 := transact (TxStake alice s) _) in *.
  assert (Hnz : plainStake w1 alice <> 0) by (rewrite P1, P0; lia).
  rewrite <- Haddr, <- A1 in Hp1.
  destruct (step_borrow w1 Hwf1 Hwired1 alice h1 p1 Hnz Hp1)
    as (Ok2 & Hwf2 & Hwired2 & A2 & _ & _ & D2 & B2 & _).
  set (w2 := transact (TxBorrow alice h1 p1) w1) in *.
  rewrite <- Haddr, <- A1, <- A2 in Hp2.
  destruct (step_repay w2 Hwf2 Hwired2 alice h2 p2 Hp2)
    as (Ok3 & _ & _ & _ & _ & _ & D3 & B3 & _).
  set (w3 := transact (TxRepay alice h2 p2) w2) in *.
  unfold canBorrow in D2, B2.
  rewrite D1, D0, S1, P0, Hc1 in D2. rewrite D1, D0, S1, P0, B1, B0, Hc1 in B2.
  destruct (Z.leb_spec (0 + b) uint64_max); [| lia].
  destruct (Z.leb_spec (0 + b) (0 + s)); [| lia].
  cbn in D2, B2.
  rewrite D2, Hc2 in D3. rewrite B2, D2, Hc2 in B3.
  destruct (Z.leb_spec b (0 + b)); [| lia].
  cbn zeta. fold w1. fold w2. fold w3.
  unfold CryptoShield.getEncryptedDebt, gets. cbn [fst].
  split_and!; try assumption.
  - f_equal. rewrite D2. lia.
  - rewrite B2. unfold FHE.add. apply mod_uint64. range.
  - f_equal. rewrite D3. lia.
  - rewrite B3. unfold FHE.sub, FHE.add.
    rewrite Zminus_mod_idemp_l. replace (0 + b - b) with 0 by lia.
    reflexivity.
Qed.

Lemma fixture_borrow_repay_witness :
  encryptedBalance
    (transact (TxBorrow Demo.alice 7 (Demo.input 4))
       (transact (TxStake Demo.alice 10)
          (deployFixture Demo.deployer Demo.vault Demo.token))) Demo.alice
    = 4.
Proof.
  apply (fixture_borrow_repay Demo.deployer Demo.vault Demo.token Demo.alice
           10 4 7 7 (Demo.input 4) (Demo.input 4)).
  - discriminate.
  - discriminate.
  - split; [reflexivity | discriminate].
  - split; [reflexivity | discriminate].
  - reflexivity.
  - reflexivity.
  - reflexivity.
  - reflexivity.
Defined.

(** X15: the tests "stakes ETH and stores encrypted balance" and "withdraws
    staked ETH and updates encrypted stake", for all amounts: on the
    fixture, after staking [s] the encrypted stake read back is [s], and
    after withdrawing [0 < a <= s] it is [s - a]. *)
Theorem fixture_stake_withdraw (deployer vault token alice s a : Z) :
  deployer <> 0 -> vault <> 0 ->
  0 < s <= uint64_max -> 0 < a <= s ->
  let w0 := deployFixture deployer vault token in
  let w1 := transact (TxStake alice s) w0 in
  let w2 := transact (TxWithdraw alice a true) w1 in
  fst (call (execute (TxStake alice s)) w0) = Ok tt
  /\ fst (CryptoShield.getEncryptedStake alice w1) = Ok s
  /\ fst (call (execute (TxWithdraw alice a true)) w1) = Ok tt
  /\ fst (CryptoShield.getEncryptedStake alice w2) = Ok (s - a).
Proof.
  intros Hd Hv Hs Ha.
  destruct (fixture_fresh deployer vault token Hd Hv)
    as (Hr & Hwired & Haddr & Heth & Hzero).
  destruct (Hzero alice) as (P0 & D0 & B0).
  pose proof (reachable_wf _ Hr) as Hwf.
  assert (Hfit : plainStake (deployFixture deployer vault token) alice + s
                 <= uint64_max) by (rewrite P0; lia).
  destruct (step_stake _ Hwf Hwired alice s (proj1 Hs) Hfit)
    as (Ok1 & Hwf1 & Hwired1 & _ & P1 & S1 & _ & _ & E1).
  set (w1 := transact (TxStake alice s) _) in *.
  assert (Hle : a <= plainStake w1 alice) by (rewrite P1, P0; lia).
  assert (Hfund : a <= ethBalance w1) by (rewrite E1, Heth; lia).
  destruct (step_withdraw w1 Hwf1 Hwired1 alice a (proj1 Ha) Hle Hfund)
    as (Ok2 & _ & _ & _ & _ & S2 & _).
  cbn zeta. fold w1.
  unfold CryptoShield.getEncryptedStake, gets. cbn [fst].
  split_and!; try assumption.
  - f_equal. rewrite S1, P0. lia.
  - f_equal. rewrite S2, P1, P0. lia.
Qed.

Lemma fixture_stake_withdraw_witness :
  fst (CryptoShield.getEncryptedStake Demo.alice
         (transact (TxStake Demo.alice 10)
            (deployFixture Demo.deployer Demo.vault Demo.token))) = Ok 10.
Proof.
  apply (fixture_stake_withdraw Demo.deployer Demo.vault Demo.token
           Demo.alice 10 3).
  - discriminate.
  - discriminate.
  - split; [reflexivity | discriminate].
  - split; [reflexivity | discriminate].
Defined.

(** ** The vault's event log *)

(** X16: the vault logs one event for each call that goes through and none
    for a call that reverts: a successful [stake], [withdraw], [borrow] or
    [repay] puts exactly its own event, for the caller, in front of the
    log; a reverted one, and every call to the ledger, leaves the log as
    it was. *)
Theorem one_event_per_success (w : World) (tx : Tx) :
  match fst (call (execute tx) w), tx with
  | Ok _, TxStake c v =>
      events (transact tx w) = StakeDeposited c v :: events w
  | Ok _, TxWithdraw c a _ =>
      events (transact tx w) = StakeWithdrawn c a :: events w
  | Ok _, TxBorrow c _ _ =>
      exists minted, events (transact tx w) = Borrowed c minted :: events w
  | Ok _, TxRepay c _ _ =>
      exists burnt, events (transact tx w) = Repaid c burnt :: events w
  | _, _ => events (transact tx w) = events w
  end.
Proof.
  open_world w. destruct tx; unfold_ops; unfold_views; cbn in *.
  all: run_blind; cbn in *; try discriminate; eauto.
Qed.

(** ** An unwired deployment *)

(** X17: while the ledger's minter is not the vault (before the hand-over of
    the fixture, or after the owner has moved the role elsewhere), no
    borrow and no repayment goes through: with a stake and a valid input,
    [borrow] reverts with [UnauthorizedMinter] naming the vault, and so
    does [repay]; nothing changes. *)
Theorem unwired_calls_revert (w : World) (c h : Z) (p : inputProof) :
  reachable w -> ~ wired w ->
  proof_ok (shieldAddr w) c h p = true ->
  (0 < plainStake w c ->
   call (CryptoShield.borrow c h p) w
     = (Revert (UnauthorizedMinter (shieldAddr w)), w))
  /\ call (CryptoShield.repay c h p) w
       = (Revert (UnauthorizedMinter (shieldAddr w)), w).
Proof.
  intros Hr Hw Hp.
  destruct (unwired_vault_is_refused w c h p (reachable_wf w Hr) Hw Hp)
    as [Hborrow Hrepay].
  split; [intros Hs; apply Hborrow; lia | exact Hrepay].
Qed.

Lemma unwired_calls_revert_witness :
  call (CryptoShield.repay Demo.alice 7 (Demo.input 3))
    (genesis Demo.deployer Demo.deployer Demo.vault Demo.token)
  = (Revert (UnauthorizedMinter Demo.vault),
     genesis Demo.deployer Demo.deployer Demo.vault Demo.token).
Proof.
  destruct (unwired_calls_revert
              (genesis Demo.deployer Demo.deployer Demo.vault Demo.token)
              Demo.alice 7 (Demo.input 3)) as [_ Hrepay].
  - apply reach_genesis. discriminate.
  - unfold wired. cbn. discriminate.
  - reflexivity.
  - exact Hrepay.
Defined.

(** * Properties of the front end *)

Section FrontEnd.

Import ShieldApp.

(** ** Splitting and slicing *)

Lemma split_not_nil (sep : N) (s : list N) : split sep s <> [].
Proof.
  destruct s as [| c rest]; cbn; [discriminate |].
  destruct (N.eqb c sep); [discriminate |].
  destruct (split sep rest); discriminate.
Qed.

Lemma join_split (sep : N) (s : list N) : join sep (split sep s) = s.
Proof.
  induction s as [| c rest IH]; cbn; [reflexivity |].
  pose proof (split_not_nil sep rest) as Hne.
  destruct (N.eqb_spec c sep) as [-> | Hc].
  - destruct (split sep rest) as [| p ps]; [contradiction |].
    change (join sep ([] :: p :: ps)) with (sep :: join sep (p :: ps)).
    now rewrite IH.
  - destruct (split sep rest) as [| p ps]; [contradiction |].
    rewrite <- IH. destruct ps; reflexivity.
Qed.

Lemma split_pieces (sep : N) (s : list N) :
  Forall (fun piece => sep ∉ piece) (split sep s).
Proof.
  induction s as [| c rest IH]; cbn.
  - constructor; [apply not_elem_of_nil | constructor].
  - destruct (N.eqb_spec c sep) as [-> | Hc].
    + constructor; [apply not_elem_of_nil | exact IH].
    + destruct (split sep rest) as [| p ps].
      * constructor; [| constructor]. rewrite list_elem_of_singleton. congruence.
      * inversion IH as [| ? ? Hp Hps]; subst.
        constructor; [| exact Hps]. rewrite elem_of_cons. intros [-> | Hin]; auto.
Qed.

Lemma split_whole (sep : N) (s : list N) : sep ∉ s -> split sep s = [s].
Proof.
  induction s as [| c rest IH]; cbn; [reflexivity |].
  rewrite not_elem_of_cons. intros [Hc Hrest].
  destruct (N.eqb_spec c sep); [congruence |].
  now rewrite (IH Hrest).
Qed.

Lemma split_at_first (sep : N) (s rest : list N) :
  sep ∉ s -> split sep (s ++ sep :: rest) = s :: split sep rest.
Proof.
  induction s as [| c s' IH]; cbn.
  - intros _. now rewrite N.eqb_refl.
  - rewrite not_elem_of_cons. intros [Hc Hs'].
    destruct (N.eqb_spec c sep); [congruence |].
    now rewrite (IH Hs').
Qed.

Lemma slice_start (s : list N) (stop : Z) :
  slice s 0 stop = take (Z.to_nat (clamp (Z.of_nat (length s)) stop)) s.
Proof.
  unfold slice.
  assert (Hzero : clamp (Z.of_nat (length s)) 0 = 0).
  { unfold clamp. destruct (Z.ltb_spec 0 0); lia. }
  rewrite Hzero. now rewrite Z.sub_0_r.
Qed.

Lemma slice_end (s : list N) (k : nat) :
  slice_from s (- Z.of_nat (S k)) = drop (length s - S k) s.
Proof.
  unfold slice_from, slice, clamp.
  destruct (Z.ltb_spec (- Z.of_nat (S k)) 0); [| lia].
  destruct (Z.ltb_spec (Z.of_nat (length s)) 0); [lia |].
  rewrite Z.min_id.
  replace (Z.to_nat (Z.max (Z.of_nat (length s) + - Z.of_nat (S k)) 0))
    with (length s - S k)%nat by lia.
  apply take_ge. rewrite length_drop. lia.
Qed.

(** ** [trimDecimals] *)

(** The shape of a result: the part before the first dot, alone or followed
    by a dot and the first units of the part after it. *)
Lemma trimDecimals_shape (value : list N) (decimals : Z) :
  exists whole rest,
    split dot value = whole :: rest /\ (dot ∉ whole)
    /\ (trimDecimals value decimals = whole
        /\ (rest = [] \/ exists more, rest = [] :: more)
        \/ exists f fraction more,
             rest = (f :: fraction) :: more /\ (dot ∉ (f :: fraction))
             /\ trimDecimals value decimals
                  = whole ++ dot :: slice (f :: fraction) 0 decimals).
Proof.
  pose proof (split_pieces dot value) as Hpieces.
  unfold trimDecimals.
  destruct (split dot value) as [| whole rest] eqn:Hsplit;
    [now apply split_not_nil in Hsplit |].
  inversion Hpieces as [| ? ? Hwhole Hrest]; subst.
  exists whole, rest. split; [reflexivity |]. split; [exact Hwhole |].
  destruct rest as [| [| f fraction] more]; cbn.
  - left. auto.
  - left. eauto.
  - right. exists f, fraction, more.
    inversion Hrest; subst. auto.
Qed.

Lemma join_prefix (sep : N) (piece : list N) (rest : list (list N)) :
  piece `prefix_of` join sep (piece :: rest).
Proof.
  destruct rest as [| next rest]; [reflexivity |].
  change (join sep (piece :: next :: rest))
    with (piece ++ sep :: join sep (next :: rest)).
  now apply prefix_app_r.
Qed.

Lemma trimDecimals_prefix_of (value : list N) (decimals : Z) :
  trimDecimals value decimals `prefix_of` value.
Proof.
  destruct (trimDecimals_shape value decimals)
    as (whole & rest & Hsplit & _ & [(-> & Hrest) | Hfrac]).
  - rewrite <- (join_split dot value), Hsplit.
    destruct Hrest as [-> | (more & ->)]; [reflexivity |].
    apply (join_prefix dot whole ([] :: more)).
  - destruct Hfrac as (f & fraction & more & -> & _ & ->).
    rewrite <- (join_split dot value), Hsplit.
    change (join dot (whole :: (f :: fraction) :: more))
      with (whole ++ dot :: join dot ((f :: fraction) :: more)).
    apply prefix_app, prefix_cons.
    rewrite slice_start.
    transitivity (f :: fraction); [apply prefix_take |].
    apply join_prefix.
Qed.

Lemma trimDecimals_digits (value : list N) (decimals : Z) :
  0 <= decimals ->
  exists whole,
    (dot ∉ whole)
    /\ (trimDecimals value decimals = whole
        \/ exists fraction,
             trimDecimals value decimals = whole ++ dot :: fraction
             /\ (dot ∉ fraction)
             /\ Z.of_nat (length fraction) <= decimals).
Proof.
  intros Hd.
  destruct (trimDecimals_shape value decimals)
    as (whole & rest & _ & Hwhole & [(-> & _) | Hfrac]).
  - exists whole. auto.
  - destruct Hfrac as (f & fraction & more & _ & Hno & ->).
    exists whole. split; [exact Hwhole |]. right.
    exists (slice (f :: fraction) 0 decimals). split; [reflexivity |].
    rewrite slice_start. split.
    + intros Hin. apply Hno. exact (subseteq_take _ _ _ Hin).
    + rewrite length_take. unfold clamp.
      destruct (Z.ltb_spec decimals 0); lia.
Qed.

(** X18: [trimDecimals] only cuts: whatever the string and the number of
    decimals, the result is a prefix of the string it was given. *)
Theorem trimDecimals_prefix (value : list N) (decimals : Z) :
  trimDecimals value decimals `prefix_of` value.
Proof. apply trimDecimals_prefix_of. Qed.

(** X19: the result of [trimDecimals] has at most one dot, and for a number
    of decimals that is not negative, at most that many units after it. *)
Theorem trimDecimals_bounded (value : list N) (decimals : Z) :
  0 <= decimals ->
  exists whole,
    (dot ∉ whole)
    /\ (trimDecimals value decimals = whole
        \/ exists fraction,
             trimDecimals value decimals = whole ++ dot :: fraction
             /\ (dot ∉ fraction)
             /\ Z.of_nat (length fraction) <= decimals).
Proof. apply trimDecimals_digits. Qed.

Lemma trimDecimals_bounded_witness :
  exists whole,
    (dot ∉ whole)
    /\ (trimDecimals (str "1.23456789") 6 = whole
        \/ exists fraction,
             trimDecimals (str "1.23456789") 6 = whole ++ dot :: fraction
             /\ (dot ∉ fraction)
             /\ Z.of_nat (length fraction) <= 6).
Proof.
  apply (trimDecimals_bounded (str "1.23456789") 6). lia.
Defined.

(** X20: with at least one decimal, [trimDecimals] is idempotent: a string
    it has produced passes through it unchanged. *)
Theorem trimDecimals_idempotent (value : list N) (decimals : Z) :
  1 <= decimals ->
  trimDecimals (trimDecimals value decimals) decimals
    = trimDecimals value decimals.
Proof.
  intros Hd.
  destruct (trimDecimals_shape value decimals)
    as (whole & rest & _ & Hwhole & [(-> & _) | Hfrac]).
  - unfold trimDecimals. now rewrite (split_whole dot whole Hwhole).
  - destruct Hfrac as (f & fraction & more & _ & Hno & ->).
    rewrite slice_start.
    remember (Z.to_nat (clamp (Z.of_nat (length (f :: fraction))) decimals))
      as k eqn:Hk.
    assert (Hpos : (1 <= k)%nat).
    { subst k. unfold clamp. cbn [length].
      destruct (Z.ltb_spec decimals 0); lia. }
    assert (Hle : Z.of_nat k <= decimals).
    { subst k. unfold clamp. destruct (Z.ltb_spec decimals 0); lia. }
    destruct k as [| k]; [lia |]. cbn [take].
    assert (Hno' : dot ∉ (f :: take k fraction)).
    { intros Hin. apply Hno. apply elem_of_cons in Hin as [-> | Hin];
        [left | right; exact (subseteq_take _ _ _ Hin)]. }
    unfold trimDecimals at 1.
    rewrite (split_at_first dot whole _ Hwhole).
    rewrite (split_whole dot _ Hno'). cbn [lookup list_lookup default].
    rewrite slice_start. f_equal. f_equal.
    apply take_ge. unfold clamp.
    destruct (Z.ltb_spec decimals 0); [lia |].
    cbn [length] in *. rewrite length_take in *. lia.
Qed.

Lemma trimDecimals_idempotent_witness :
  trimDecimals (trimDecimals (str "0.123456789") 6) 6
    = trimDecimals (str "0.123456789") 6.
Proof. apply (trimDecimals_idempotent (str "0.123456789") 6). lia. Defined.

(** X21: [formatAmount] shows a cut of what [ethers.formatEther] renders:
    for a defined value the result is a prefix of that rendering, with at
    most one dot and at most six units after it; for [undefined] it is two
    dashes. *)
Theorem formatAmount_cut (formatEther : Z -> list N) (value : option Z) :
  match value with
  | None => formatAmount formatEther value = str "--"
  | Some v =>
      formatAmount formatEther value `prefix_of` formatEther v
      /\ exists whole,
           (dot ∉ whole)
           /\ (formatAmount formatEther value = whole
               \/ exists fraction,
                    formatAmount formatEther value = whole ++ dot :: fraction
                    /\ (dot ∉ fraction)
                    /\ (length fraction <= 6)%nat)
  end.
Proof.
  destruct value as [v |]; [| reflexivity]. cbn [formatAmount].
  split; [apply trimDecimals_prefix_of |].
  destruct (trimDecimals_digits (formatEther v) 6) as (whole & Hw & Hcase);
    [lia |].
  exists whole. split; [exact Hw |].
  destruct Hcase as [-> | (fraction & -> & Hf & Hlen)]; [auto |].
  right. exists fraction. split_and!; auto. lia.
Qed.

(** ** [shortenAddress] and [formatContractAddress] *)

(** X22: for an address that is not empty, [shortenAddress] joins its first
    six units (all of them if there are fewer), three dots, and its last
    four.  The result has at most 13 units, and exactly 13 once the address
    has six or more.  [formatContractAddress] returns the same string
    for every such address other than the zero address. *)
Theorem shortenAddress_shape (a label : list N) :
  a <> [] ->
  shortenAddress (Some a) = take 6 a ++ str "..." ++ drop (length a - 4) a
  /\ (length (shortenAddress (Some a)) <= 13)%nat
  /\ ((6 <= length a)%nat -> length (shortenAddress (Some a)) = 13%nat)
  /\ (a <> ZERO_ADDRESS ->
      formatContractAddress a label = shortenAddress (Some a)).
Proof.
  intros Hne.
  assert (Hshape : slice a 0 6 ++ str "..." ++ slice_from a (-4)
                   = take 6 a ++ str "..." ++ drop (length a - 4) a).
  { rewrite slice_start. change (-4) with (- Z.of_nat 4).
    rewrite slice_end. f_equal.
    unfold clamp. destruct (Z.ltb_spec 6 0); [lia |].
    destruct (Z.min_spec 6 (Z.of_nat (length a))) as [[_ ->] | [Hle ->]];
      [reflexivity |].
    rewrite Nat2Z.id. rewrite take_ge by lia. symmetry. apply take_ge. lia. }
  assert (Heq : shortenAddress (Some a)
                = take 6 a ++ str "..." ++ drop (length a - 4) a).
  { destruct a; [contradiction | exact Hshape]. }
  split; [exact Heq |]. rewrite Heq.
  rewrite !length_app, length_take, length_drop.
  change (length (str "...")) with 3%nat.
  split; [lia |]. split; [lia |].
  intros Hnz. unfold formatContractAddress.
  destruct (decide (a = ZERO_ADDRESS)); [contradiction | exact Hshape].
Qed.

Lemma shortenAddress_shape_witness :
  length (shortenAddress (Some ZERO_ADDRESS)) = 13%nat.
Proof.
  apply (shortenAddress_shape ZERO_ADDRESS []);
    [discriminate | vm_compute; lia].
Defined.

(** ** [parseAmount] *)

Lemma trimStart_spaces (s : list N) :
  Forall (fun c => is_space c = true) s -> trimStart s = [].
Proof.
  induction 1 as [| c rest Hc _ IH]; cbn; [reflexivity |].
  now rewrite Hc.
Qed.

Section Parsing.

Variable parseEther : list N -> option Z.

(** X23: [parseAmount] returns positive amounts only: whatever
    [ethers.parseEther] does, a returned amount is greater than zero and is
    what [parseEther] made of the trimmed, non-empty input.  An input of
    white space alone is refused with "Enter an amount." before
    [parseEther] is asked. *)
Theorem parseAmount_positive (value : list N) :
  (forall v, parseAmount parseEther value = inr v ->
     0 < v /\ trim value <> [] /\ parseEther (trim value) = Some v)
  /\ (Forall (fun c => is_space c = true) value ->
      parseAmount parseEther value = inl EnterAnAmount).
Proof.
  unfold parseAmount. split.
  - intros v. destruct (trim value) as [| c t] eqn:Ht; [discriminate |].
    destruct (parseEther (c :: t)) as [parsed |]; [| discriminate].
    destruct (Z.leb_spec parsed 0); [discriminate |].
    intros [= <-]. auto.
  - intros Hblank. unfold trim. now rewrite (trimStart_spaces value Hblank).
Qed.

(** X24: what the front end sends is never refused for being zero: with an
    amount from [parseAmount], [stake] does not fail with
    [ZeroStakeAmount] and [withdraw] does not fail with
    [ZeroWithdrawAmount], in any state. *)
Theorem parsed_amount_not_zero (value : list N) (v : Z) (w : World) (c : Z)
    (accepts : bool) :
  parseAmount parseEther value = inr v ->
  fst (call (CryptoShield.stake c v) w) <> Revert ZeroStakeAmount
  /\ fst (call (CryptoShield.withdraw c v accepts) w)
       <> Revert ZeroWithdrawAmount.
Proof.
  intros Hparsed.
  assert (Hpos : 0 < v).
  { unfold parseAmount in Hparsed.
    destruct (trim value); [discriminate |].
    destruct (parseEther _) as [parsed |]; [| discriminate].
    destruct (Z.leb_spec parsed 0); [discriminate |].
    injection Hparsed as <-. assumption. }
  rewrite !call_fst.
  open_world w. unfold_ops. unfold_views. cbn.
  destruct (Z.eqb_spec v 0); [lia |].
  split; run_blind; discriminate.
Qed.

End Parsing.

Lemma parsed_amount_not_zero_witness :
  fst (call (CryptoShield.stake Demo.alice 5) Demo.fresh)
    <> Revert ZeroStakeAmount.
Proof.
  apply (parsed_amount_not_zero (fun _ => Some 5) (str " 5 ") 5 Demo.fresh
           Demo.alice true).
  reflexivity.
Defined.

(** ** [availableCollateral] *)



(** ** The handles [decryptBalances] asks for *)

Lemma live_spec (handle : option (list N)) :
  live handle = true <->
  exists h, handle = Some h /\ h <> [] /\ h <> ZERO_HANDLE.
Proof.
  unfold live. destruct handle as [[| c h] |].
  - split; [discriminate | intros (h & [= <-] & Hne & _); contradiction].
  - rewrite negb_true_iff, bool_decide_eq_false. split.
    + intros Hz. exists (c :: h). auto.
    + intros (h' & [= <-] & _ & Hz). exact Hz.
  - split; [discriminate | intros (h & Hh & _); discriminate].
Qed.

Lemma live_some (h : list N) :
  h <> [] -> h <> ZERO_HANDLE -> live (Some h) = true.
Proof. intros Hne Hz. apply live_spec. eauto. Qed.

(** X26: [decryptBalances] asks for exactly the live handles (set, not
    empty and not the zero handle).  A request is in the list if and only
    if its handle is live and it is the stake or the debt handle with the
    vault's address, or the balance handle with the ledger's; the list has
    one request for each live handle, and so is empty exactly when none is
    live; and the list of contract addresses has no duplicates and names
    exactly the contracts of the requests. *)
Theorem decrypt_requests (shieldAddress czamaAddress : list N)
    (stakeHandle debtHandle balanceHandle : option (list N)) :
  let pairs :=
    handleContractPairs shieldAddress czamaAddress stakeHandle debtHandle
      balanceHandle in
  (pairs = [] <->
     live stakeHandle = false /\ live debtHandle = false
     /\ live balanceHandle = false)
  /\ (forall h addr, (h, addr) ∈ pairs <->
        h <> [] /\ h <> ZERO_HANDLE
        /\ (addr = shieldAddress
              /\ (stakeHandle = Some h \/ debtHandle = Some h)
            \/ addr = czamaAddress /\ balanceHandle = Some h))
  /\ length pairs
       = (Nat.b2n (live stakeHandle) + Nat.b2n (live debtHandle)
          + Nat.b2n (live balanceHandle))%nat
  /\ NoDup (contractAddresses pairs)
  /\ (forall addr, addr ∈ contractAddresses pairs <->
        addr = shieldAddress
          /\ (live stakeHandle = true \/ live debtHandle = true)
        \/ addr = czamaAddress /\ live balanceHandle = true).
Proof.
  cbn zeta. unfold handleContractPairs, contractAddresses.
  destruct (live stakeHandle) eqn:Hs, (live debtHandle) eqn:Hd,
    (live balanceHandle) eqn:Hb.
  all: try (apply live_spec in Hs as (hs & -> & Hs1 & Hs2)).
  all: try (apply live_spec in Hd as (hd & -> & Hd1 & Hd2)).
  all: try (apply live_spec in Hb as (hb & -> & Hb1 & Hb2)).
  all: cbn.
  all: split; [split; [try discriminate; auto | intros (? & ? & ?); congruence] |].
  all: split;
    [intros h addr; split;
     [intros Hin;
      repeat (apply elem_of_cons in Hin as [[= -> ->] | Hin]; [auto 10 |]);
      now apply elem_of_nil in Hin
     |intros (Hne & Hnz & Hcase);
      pose proof (live_some h Hne Hnz) as Hl;
      destruct Hcase as [[-> [Heq | Heq]] | [-> Heq]];
      try (rewrite Heq in *; congruence);
      injection Heq as ->; rewrite !elem_of_cons; auto 10] |].
  all: split; [reflexivity |].
  all: repeat (rewrite ?filter_cons, ?filter_nil; cbn; repeat case_decide).
  all: split;
    [repeat constructor; rewrite ?elem_of_cons, ?elem_of_nil;
     intuition congruence |].
  all: intros addr; rewrite ?elem_of_cons, ?elem_of_nil; intuition congruence.
Qed.

End FrontEnd.
